(** * Rule-based sentence tokenizer for mixed Gujarati/Latin text

    A shallow embedding of [GujaratiSentenceTokenizer]
    (NLP Lab/sentence_tokenizer_Regex.py): the protection patterns, the
    placeholder store, the boundary splitter, the restorer and the merger,
    together with the part of Python's [re] and [str] semantics these
    functions rely on.

    A Python [str] is a sequence of Unicode code points; it is modelled as a
    [list N].  The regular expressions of the source are kept as syntax
    trees and run by a backtracking matcher that lists the possible ends of
    a match in the order in which Python's engine tries them. *)

From Stdlib Require Import String Ascii Decimal DecimalNat.
From Stdlib Require Import List NArith Arith Bool Lia.
Import ListNotations.

Local Open Scope N_scope.
Local Open Scope list_scope.

Set Implicit Arguments.

(* ===================================================================== *)
(** ** Text: sequences of code points *)
(* ===================================================================== *)

Abbreviation str := (list N) (only parsing).

(** Decoding of UTF-8, the encoding of the source file: string literals of
    the program are written below as they are in the source. *)
Fixpoint utf8_decode (bs : list N) : str :=
  match bs with
  | [] => []
  | b0 :: tl0 =>
    if b0 <? 0x80 then b0 :: utf8_decode tl0
    else match tl0 with
    | [] => [b0]
    | b1 :: tl1 =>
      if b0 <? 0xE0 then ((b0 - 0xC0) * 64 + (b1 - 0x80)) :: utf8_decode tl1
      else match tl1 with
      | [] => [b0; b1]
      | b2 :: tl2 =>
        if b0 <? 0xF0
        then ((b0 - 0xE0) * 4096 + (b1 - 0x80) * 64 + (b2 - 0x80)) :: utf8_decode tl2
        else match tl2 with
        | [] => [b0; b1; b2]
        | b3 :: tl3 =>
          ((b0 - 0xF0) * 262144 + (b1 - 0x80) * 4096 + (b2 - 0x80) * 64 + (b3 - 0x80))
            :: utf8_decode tl3
        end
      end
    end
  end.

Definition u8 (s : string) : str :=
  utf8_decode (map N_of_ascii (list_ascii_of_string s)).

(** [str(n)] for a non-negative integer, as used by the f-string of
    [_create_placeholder]. *)
Fixpoint digits_of_uint (d : Decimal.uint) : str :=
  match d with
  | Decimal.Nil => []
  | Decimal.D0 d => 0x30 :: digits_of_uint d
  | Decimal.D1 d => 0x31 :: digits_of_uint d
  | Decimal.D2 d => 0x32 :: digits_of_uint d
  | Decimal.D3 d => 0x33 :: digits_of_uint d
  | Decimal.D4 d => 0x34 :: digits_of_uint d
  | Decimal.D5 d => 0x35 :: digits_of_uint d
  | Decimal.D6 d => 0x36 :: digits_of_uint d
  | Decimal.D7 d => 0x37 :: digits_of_uint d
  | Decimal.D8 d => 0x38 :: digits_of_uint d
  | Decimal.D9 d => 0x39 :: digits_of_uint d
  end.

Definition py_str_of_nat (n : nat) : str := digits_of_uint (Nat.to_uint n).

(* ===================================================================== *)
(** ** Character classes of Python *)
(* ===================================================================== *)

(** [str.isspace] on one code point; also the class [\s] of [re] and the
    characters removed by [str.strip] and separating the words of
    [str.split]. *)
Definition py_isspace (c : N) : bool :=
  ((0x09 <=? c) && (c <=? 0x0D)) || ((0x1C <=? c) && (c <=? 0x20))
  || (c =? 0x85) || (c =? 0xA0) || (c =? 0x1680)
  || ((0x2000 <=? c) && (c <=? 0x200A))
  || (c =? 0x2028) || (c =? 0x2029) || (c =? 0x202F) || (c =? 0x205F)
  || (c =? 0x3000).

Definition ascii_digit (c : N) : bool := (0x30 <=? c) && (c <=? 0x39).

Definition ascii_alnum (c : N) : bool :=
  ascii_digit c || ((0x41 <=? c) && (c <=? 0x5A)) || ((0x61 <=? c) && (c <=? 0x7A)).

(** Gujarati digits, U+0AE6 to U+0AEF. *)
Definition gujarati_digit (c : N) : bool := (0x0AE6 <=? c) && (c <=? 0x0AEF).

(** Items of a bracketed set, and the escapes [\s], [\w] and [\d]. *)
Inductive citem : Type :=
| CLit (c : N)
| CRange (lo hi : N)
| CSpace
| CWord
| CDigit.

(** Regular expressions, as far as the patterns of the tokenizer use them.
    [Rep r lo hi] is the greedy repetition [r{lo,hi}]; [hi = None] leaves
    it unbounded, so [r+] is [Rep r 1 None] and [r?] is
    [Rep r 0 (Some 1)]. Groups are transparent for matching. *)
Inductive regex : Type :=
| Str (w : str)
| Set_ (neg : bool) (items : list citem)
| Cat (r1 r2 : regex)
| Alt (r1 r2 : regex)
| Rep (r : regex) (lo : nat) (hi : option nat).

Fixpoint strip_prefix (w s : str) : option str :=
  match w with
  | [] => Some s
  | a :: w' =>
    match s with
    | [] => None
    | c :: s' => if a =? c then strip_prefix w' s' else None
    end
  end.

(** Greedy repetition of a step that lists the ends of one iteration:
    one more iteration is tried first, stopping here comes last.  The
    count [fuel] bounds the number of iterations; every repeated pattern of
    the tokenizer consumes text, so the length of the text is enough
    ([ends_rep_fuel], [patterns_loops_consume]). *)
Fixpoint rep (step : str -> list str) (fuel lo : nat) (hi : option nat)
    (s : str) : list str :=
  let stop := if Nat.eqb lo 0 then [s] else [] in
  match fuel with
  | O => stop
  | S fuel' =>
    match hi with
    | Some O => stop
    | _ => flat_map (rep step fuel' (Nat.pred lo) (option_map Nat.pred hi)) (step s)
             ++ stop
    end
  end.

(** Shorthands for the syntax of patterns. *)
Definition ch (a : ascii) : N := N_of_ascii a.
Definition plus (r : regex) : regex := Rep r 1 None.
Definition star (r : regex) : regex := Rep r 0 None.
Definition opt (r : regex) : regex := Rep r 0 (Some 1%nat).
Definition between (lo hi : nat) (r : regex) : regex := Rep r lo (Some hi).

Fixpoint cats (rs : list regex) : regex :=
  match rs with
  | [] => Str []
  | [r] => r
  | r :: rs' => Cat r (cats rs')
  end.

Fixpoint alts (rs : list regex) : regex :=
  match rs with
  | [] => Set_ false []
  | [r] => r
  | r :: rs' => Alt r (alts rs')
  end.

Definition re_digit : regex := Set_ false [CDigit].
Definition re_word : regex := Set_ false [CWord].
Definition re_space : regex := Set_ false [CSpace].
Definition re_dot : regex := Str [ch "."].

(* ===================================================================== *)
(** ** The patterns of [GujaratiSentenceTokenizer.__init__] *)
(* ===================================================================== *)

(** ['url': r'https?://[^\s]+\.\w+'] *)
Definition pat_url : regex :=
  cats [Str (u8 "http"); opt (Str (u8 "s")); Str (u8 "://");
        plus (Set_ true [CSpace]); re_dot; plus re_word].

(** ['email': r'[\w\.-]+@(\w\.)+\w+'] *)
Definition pat_email : regex :=
  cats [plus (Set_ false [CWord; CLit (ch "."); CLit (ch "-")]); Str (u8 "@");
        plus (Cat re_word re_dot); plus re_word].

Definition months : list str :=
  [u8 "જાન્યુઆરી"; u8 "ફેબ્રુઆરી"; u8 "માર્ચ"; u8 "એપ્રિલ"; u8 "મે"; u8 "જૂન";
   u8 "જુલાઈ"; u8 "ઑગસ્ટ"; u8 "સપ્ટેમ્બર"; u8 "ઑક્ટોબર"; u8 "નવેમ્બર";
   u8 "ડિસેમ્બર"].

(** ['date': r'\d{1,2}[-/]\d{1,2}[-/]\d{2,4}|\d{1,2}\s*(<months>)+\s*\d{2,4}'] *)
Definition pat_date : regex :=
  Alt (cats [between 1 2 re_digit; Set_ false [CLit (ch "-"); CLit (ch "/")];
             between 1 2 re_digit; Set_ false [CLit (ch "-"); CLit (ch "/")];
             between 2 4 re_digit])
      (cats [between 1 2 re_digit; star re_space; plus (alts (map Str months));
             star re_space; between 2 4 re_digit]).

(** ['ellipsis': r'\.\.\.'] *)
Definition pat_ellipsis : regex := Str (u8 "...").

(** ['num_dot': r'(?:\d+|[\u0AE6-\u0AEF]+)\.'] *)
Definition pat_num_dot : regex :=
  Cat (Alt (plus re_digit) (plus (Set_ false [CRange 0x0AE6 0x0AEF]))) re_dot.

(** ['guj_matra_dot': r'([\u0A80-\u0AFF]+[\u0ABE-\u0ACC\u0A81-\u0A83\u0ACD]+)\.'] *)
Definition pat_guj_matra_dot : regex :=
  Cat (Cat (plus (Set_ false [CRange 0x0A80 0x0AFF]))
           (plus (Set_ false [CRange 0x0ABE 0x0ACC; CRange 0x0A81 0x0A83; CLit 0x0ACD])))
      re_dot.

(** [self.abbreviations]; every entry is a literal, its dots escaped. *)
Definition abbreviations : list str :=
  [u8 "Dr."; u8 "Mr."; u8 "Mrs."; u8 "Ms."; u8 "Prof."; u8 "Sr."; u8 "Jr."; u8 "St.";
   u8 "vs."; u8 "etc."; u8 "e.g."; u8 "i.e."; u8 "a.m."; u8 "p.m.";
   u8 "એલ.સી.બી."; u8 "પી.એસ.આઇ."; u8 "શ્રી."; u8 "શ્રીમતી."; u8 "કું."; u8 "શ્રીમ.";
   u8 "ડૉ."; u8 "પ્રો."; u8 "સ્વ."].

(** [abbr_pattern = r'(' + '|'.join(self.abbreviations) + r')'] *)
Definition abbr_pattern : regex := alts (map Str abbreviations).

(** [self.sentence_boundary_pattern = r'([\.!?।\u0964])\s+']: the group and
    what follows it. *)
Definition boundary_group : regex :=
  Set_ false [CLit (ch "."); CLit (ch "!"); CLit (ch "?"); CLit 0x0964; CLit 0x0964].
Definition boundary_tail : regex := plus re_space.

(** Rows of the Unicode character database for the two scripts the
    tokenizer is written for, Latin-1 and the Gujarati block: the code points
    outside ASCII there for which [str.isalnum], resp. [str.isdecimal],
    holds.  They instantiate the tables in the examples below. *)
Definition latin_gujarati_alnum (c : N) : bool :=
  (c =? 0xAA) || (c =? 0xB2) || (c =? 0xB3) || (c =? 0xB5) || (c =? 0xB9) || (c =? 0xBA)
  || ((0xBC <=? c) && (c <=? 0xBE))
  || ((0xC0 <=? c) && (c <=? 0xD6)) || ((0xD8 <=? c) && (c <=? 0xF6))
  || ((0xF8 <=? c) && (c <=? 0xFF))
  || ((0x0A85 <=? c) && (c <=? 0x0A8D)) || ((0x0A8F <=? c) && (c <=? 0x0A91))
  || ((0x0A93 <=? c) && (c <=? 0x0AA8)) || ((0x0AAA <=? c) && (c <=? 0x0AB0))
  || ((0x0AB2 <=? c) && (c <=? 0x0AB3)) || ((0x0AB5 <=? c) && (c <=? 0x0AB9))
  || (c =? 0x0ABD) || (c =? 0x0AD0) || ((0x0AE0 <=? c) && (c <=? 0x0AE1))
  || ((0x0AE6 <=? c) && (c <=? 0x0AEF)) || (c =? 0x0AF9).

Definition latin_gujarati_decimal (c : N) : bool := gujarati_digit c.

(** Texts used in the examples. *)
Definition url_example : list N :=
  u8 "Visit https://example.com/page.html today. Thanks.".
Definition nested_example : list N := u8 "Wait...me@x.org".
Definition email_example : list N := u8 "user@example.com".
Definition newline_example : list N := u8 "a" ++ [0x0A] ++ u8 "b".
Definition report_example : list N :=
  u8 "Dr. Shah paid 3.5 rupees... on 12 જાન્યુઆરી 2020. It was cold there. Yes.".

Ltac bool_arith :=
  repeat (rewrite ?orb_false_iff, ?andb_false_iff, ?orb_true_iff, ?andb_true_iff,
            ?negb_true_iff, ?negb_false_iff,
            ?N.leb_le, ?N.leb_gt, ?N.ltb_lt, ?N.ltb_ge, ?N.eqb_eq, ?N.eqb_neq in *);
  try lia.

Ltac norm_ch :=
  repeat match goal with
  | |- context [ch ?a] =>
    let v := eval vm_compute in (ch a) in change (ch a) with v
  | H : context [ch ?a] |- _ =>
    let v := eval vm_compute in (ch a) in change (ch a) with v in H
  end.

Ltac in_literal := vm_compute; repeat (first [left; reflexivity | right]).

Ltac class_fact word_fact decimal_fact :=
  let c := fresh "c" in let H := fresh "H" in
  intros c H; cbn -[N.eqb N.leb N.ltb] in H;
  repeat (apply orb_true_iff in H; destruct H as [H|H]);
  try discriminate H;
  first [ now apply word_fact
        | now apply decimal_fact
        | norm_ch; unfold py_isspace; bool_arith ].

Ltac each_code_point :=
  let c := fresh "c" in let H := fresh "H" in
  intros c H; vm_compute in H;
  repeat (destruct H as [H|H]; [subst c; first [reflexivity|discriminate]|]);
  contradiction.

Section Unicode.

(** The Unicode tables of the Python interpreter outside ASCII:
    [str.isalnum] and [str.isdecimal] on one code point. *)
Variable uni_alnum : N -> bool.
Variable uni_decimal : N -> bool.

(** [\d]. *)
Definition py_isdecimal (c : N) : bool :=
  if c <? 0x80 then ascii_digit c else uni_decimal c.

(** [\w]: alphanumeric, or the underscore. *)
Definition py_isword (c : N) : bool :=
  if c <? 0x80 then ascii_alnum c || (c =? 0x5F) else uni_alnum c.

Definition in_citem (c : N) (i : citem) : bool :=
  match i with
  | CLit a => a =? c
  | CRange lo hi => (lo <=? c) && (c <=? hi)
  | CSpace => py_isspace c
  | CWord => py_isword c
  | CDigit => py_isdecimal c
  end.

Definition in_set (neg : bool) (items : list citem) (c : N) : bool :=
  xorb neg (existsb (in_citem c) items).

(** [ends r s]: the rests of [s] after each way of matching [r] at the
    start of [s], in the order in which the backtracking engine finds
    them.  The first one is the match [re] reports at this position. *)
Fixpoint ends (r : regex) (s : str) : list str :=
  match r with
  | Str w => match strip_prefix w s with Some rest => [rest] | None => [] end
  | Set_ neg items =>
    match s with
    | c :: rest => if in_set neg items c then [rest] else []
    | [] => []
    end
  | Cat r1 r2 => flat_map (ends r2) (ends r1 s)
  | Alt r1 r2 => ends r1 s ++ ends r2 s
  | Rep r' lo hi => rep (ends r') (S (length s)) lo hi s
  end.

(** [pattern.match] at the start of [s]: the rest after the match. *)
Definition match_here (r : regex) (s : str) : option str := hd_error (ends r s).

(** The same for a pattern [(g)t] whose first group is read back:
    the text of group 1 and the rest after the whole match. *)
Definition match_group (g t : regex) (s : str) : option (str * str) :=
  hd_error
    (flat_map (fun s1 => map (fun rest => (firstn (length s - length s1) s, rest))
                             (ends t s1))
              (ends g s)).

(* ===================================================================== *)
(** ** [re.sub], [re.split] and the [str] methods *)
(* ===================================================================== *)

(** The list [self.protected_items]. *)
Abbreviation store := (list (list N)) (only parsing).

(** [re.sub(r, repl, s)] with a callback [repl] that reads and extends the
    store: the leftmost match is looked for from the current position, the
    text before it is copied, the callback's result stands for the match and
    the scan goes on behind it.  A match that consumes nothing is passed
    over: none of the patterns above has one ([cascade_consumes]).  The
    count [fuel] starts above the length of the text and is never used up
    ([sub_loop_fuel_enough]). *)
Fixpoint sub_loop (r : regex) (repl : store -> str -> str * store)
    (fuel : nat) (s : str) (st : store) : str * store :=
  match fuel with
  | O => (s, st)
  | S fuel' =>
    match match_here r s with
    | Some rest =>
      if (length rest <? length s)%nat then
        let (ph, st1) := repl st (firstn (length s - length rest) s) in
        let (out, st2) := sub_loop r repl fuel' rest st1 in
        (ph ++ out, st2)
      else
        match s with
        | [] => ([], st)
        | c :: s' => let (out, st1) := sub_loop r repl fuel' s' st in (c :: out, st1)
        end
    | None =>
      match s with
      | [] => ([], st)
      | c :: s' => let (out, st1) := sub_loop r repl fuel' s' st in (c :: out, st1)
      end
    end
  end.

Definition re_sub (r : regex) (repl : store -> str -> str * store)
    (s : str) (st : store) : str * store :=
  sub_loop r repl (S (length s)) s st.

(** [re.split] for a pattern [(g)t] with one group: the pieces between the
    matches alternate with the text of the group. [cur] is the piece under
    way.  The boundary pattern consumes text ([boundary_consumes],
    [split_loop_fuel_enough]). *)
Fixpoint split_loop (g t : regex) (fuel : nat) (s cur : str) : list str :=
  match fuel with
  | O => [cur ++ s]
  | S fuel' =>
    match match_group g t s with
    | Some (grp, rest) =>
      if (length rest <? length s)%nat then cur :: grp :: split_loop g t fuel' rest []
      else
        match s with
        | [] => [cur]
        | c :: s' => split_loop g t fuel' s' (cur ++ [c])
        end
    | None =>
      match s with
      | [] => [cur]
      | c :: s' => split_loop g t fuel' s' (cur ++ [c])
      end
    end
  end.

Definition re_split (g t : regex) (s : str) : list str :=
  split_loop g t (S (length s)) s [].

(** [s.lstrip()], [s.rstrip()] and [s.strip()]. *)
Fixpoint py_lstrip (s : str) : str :=
  match s with
  | [] => []
  | c :: s' => if py_isspace c then py_lstrip s' else s
  end.

Definition py_rstrip (s : str) : str := rev (py_lstrip (rev s)).

Definition py_strip (s : str) : str := py_rstrip (py_lstrip s).

(** [s.split()]: the maximal runs of non-whitespace; [cur] is the word under
    way. *)
Fixpoint split_words (s cur : str) : list str :=
  match s with
  | [] => match cur with [] => [] | _ => [cur] end
  | c :: s' =>
    if py_isspace c
    then match cur with [] => split_words s' [] | _ => cur :: split_words s' [] end
    else split_words s' (cur ++ [c])
  end.

Definition py_split (s : str) : list str := split_words s [].

(** [s.replace(old, new)]: the occurrences of [old] are replaced from left
    to right, the scan going on behind each of them
    ([replace_loop_fuel_enough]); an empty [old] matches between any two
    code points. *)
Fixpoint replace_loop (old new : str) (fuel : nat) (s : str) : str :=
  match fuel with
  | O => s
  | S fuel' =>
    match strip_prefix old s with
    | Some rest => new ++ replace_loop old new fuel' rest
    | None =>
      match s with
      | [] => []
      | c :: s' => c :: replace_loop old new fuel' s'
      end
    end
  end.

Definition py_replace (old new s : str) : str :=
  match old with
  | [] => new ++ flat_map (fun c => c :: new) s
  | _ => replace_loop old new (S (length s)) s
  end.

(** [enumerate(l)], as a list. *)
Definition enumerate (A : Type) (l : list A) : list (nat * A) :=
  combine (seq 0 (length l)) l.

(* ===================================================================== *)
(** ** The methods of [GujaratiSentenceTokenizer] *)
(* ===================================================================== *)

(** The only attribute of the object that changes is
    [self.protected_items]; the methods take it and, where they assign or
    append to it, return it. *)

(** [f"__PROTECTED_{idx}__"] *)
Definition placeholder (idx : nat) : str :=
  u8 "__PROTECTED_" ++ py_str_of_nat idx ++ u8 "__".

Definition _create_placeholder (self : store) (m : str) : str * store :=
  let self := self ++ [m] in
  (placeholder (length self - 1), self).

Definition _protect_special_patterns (self : store) (text : str) : str * store :=
  let (text, self) := re_sub pat_ellipsis _create_placeholder text self in
  let (text, self) := re_sub pat_url _create_placeholder text self in
  let (text, self) := re_sub pat_email _create_placeholder text self in
  let (text, self) := re_sub pat_date _create_placeholder text self in
  let (text, self) := re_sub abbr_pattern _create_placeholder text self in
  let (text, self) := re_sub pat_num_dot _create_placeholder text self in
  let (text, self) := re_sub pat_guj_matra_dot _create_placeholder text self in
  (text, self).

Definition _restore_protected_items (self : store) (text : str) : str :=
  fold_left (fun text (p : nat * str) => py_replace (placeholder (fst p)) (snd p) text)
            (enumerate self) text.

(** The [while] loop of [_split_into_sentences]: [i] advances by two as
    long as [i < len(parts) - 1], that is as long as [parts[i + 1]] exists;
    the [else] branch of the test [i + 1 < len(parts)] inside the loop is
    never taken. *)
Fixpoint split_pairs (self : store) (parts : list str) : list str :=
  match parts with
  | p0 :: p1 :: tl =>
    let sentence := _restore_protected_items self (py_strip (p0 ++ p1)) in
    match sentence with
    | [] => split_pairs self tl
    | _ => sentence :: split_pairs self tl
    end
  | _ => []
  end.

Definition _split_into_sentences (self : store) (text : str) : list str :=
  let parts := re_split boundary_group boundary_tail text in
  let sentences := split_pairs self parts in
  if (Nat.eqb (length parts mod 2) 1)
     && negb (Nat.eqb (length (py_strip (last parts []))) 0)
  then
    let last_part := _restore_protected_items self (py_strip (last parts [])) in
    match last_part with
    | [] => sentences
    | _ => sentences ++ [last_part]
    end
  else sentences.

(** One turn of the [for] loop of [_merge_short_sentences]. *)
Definition merge_step (merged : list str) (sentence : str) : list str :=
  match merged with
  | _ :: _ =>
    if (length (py_split sentence) <? 3)%nat
    then removelast merged ++ [py_rstrip (last merged []) ++ u8 " " ++ sentence]
    else merged ++ [sentence]
  | [] => merged ++ [sentence]
  end.

Definition _merge_short_sentences (sentences : list str) : list str :=
  fold_left merge_step sentences [].

Definition tokenize (self : store) (text : str) : list str * store :=
  let self : store := [] in
  let (protected_text, self) := _protect_special_patterns self text in
  let raw_sentences := _split_into_sentences self protected_text in
  let final_sentences := _merge_short_sentences raw_sentences in
  (final_sentences, self).

(** A new [GujaratiSentenceTokenizer()] starts with no protected item. *)
Definition gujarati_sentence_tokenizer (text : str) : list str :=
  fst (tokenize [] text).

(* ===================================================================== *)
(** ** Predicates used in the statements *)
(* ===================================================================== *)

(** [Matches r w]: the pattern [r] can match exactly the text [w]. *)
Inductive Matches : regex -> str -> Prop :=
| M_Str w : Matches (Str w) w
| M_Set neg items c : in_set neg items c = true -> Matches (Set_ neg items) [c]
| M_Cat r1 r2 w1 w2 :
    Matches r1 w1 -> Matches r2 w2 -> Matches (Cat r1 r2) (w1 ++ w2)
| M_AltL r1 r2 w : Matches r1 w -> Matches (Alt r1 r2) w
| M_AltR r1 r2 w : Matches r2 w -> Matches (Alt r1 r2) w
| M_RepStop r hi : Matches (Rep r 0 hi) []
| M_RepStep r lo hi w1 w2 :
    hi <> Some O ->
    Matches r w1 ->
    Matches (Rep r (Nat.pred lo) (option_map Nat.pred hi)) w2 ->
    Matches (Rep r lo hi) (w1 ++ w2).

(** Every match of [r] begins with a code point in [P]. *)
Fixpoint starts_with (P : N -> Prop) (r : regex) : Prop :=
  match r with
  | Str w => match w with c :: _ => P c | [] => False end
  | Set_ neg items => forall c, in_set neg items c = true -> P c
  | Cat r1 _ => starts_with P r1
  | Alt r1 r2 => starts_with P r1 /\ starts_with P r2
  | Rep r' lo _ => lo <> O /\ starts_with P r'
  end.

(** Every match of [r] ends with a code point in [P]. *)
Fixpoint ends_with (P : N -> Prop) (r : regex) : Prop :=
  match r with
  | Str w => match rev w with c :: _ => P c | [] => False end
  | Set_ neg items => forall c, in_set neg items c = true -> P c
  | Cat _ r2 => ends_with P r2
  | Alt r1 r2 => ends_with P r1 /\ ends_with P r2
  | Rep r' lo _ => lo <> O /\ ends_with P r'
  end.

(** Every match of [r] holds a code point in [P]. *)
Fixpoint needs (P : N -> Prop) (r : regex) : Prop :=
  match r with
  | Str w => exists c, In c w /\ P c
  | Set_ neg items => forall c, in_set neg items c = true -> P c
  | Cat r1 r2 => needs P r1 \/ needs P r2
  | Alt r1 r2 => needs P r1 /\ needs P r2
  | Rep r' lo _ => lo <> O /\ needs P r'
  end.

(** A pattern whose matches all begin with some code point consumes text. *)
Definition consumes (r : regex) : Prop := starts_with (fun _ => True) r.

(** The course of [re.sub(r, self._create_placeholder, s)], as a relation
    between the text and store before and after: code points are copied
    where [r] does not match, and a match [w] is recorded in the store and
    replaced by the placeholder of its index. *)
Inductive SubRun (r : regex) : str -> store -> str -> store -> Prop :=
| SR_end st : SubRun r [] st [] st
| SR_copy c s st out st' :
    match_here r (c :: s) = None ->
    SubRun r s st out st' ->
    SubRun r (c :: s) st (c :: out) st'
| SR_match w rest st out st' :
    match_here r (w ++ rest) = Some rest ->
    Matches r w ->
    w <> [] ->
    SubRun r rest (st ++ [w]) out st' ->
    SubRun r (w ++ rest) st (placeholder (length st) ++ out) st'.

(** One statement of [_protect_special_patterns], on the pair of the text
    and the store. *)
Definition stage (p : regex) (ts : list N * list (list N)) : list N * list (list N) :=
  re_sub p _create_placeholder (fst ts) (snd ts).

(** The shape of a merged list: no entry is empty, and every entry behind
    the first one has at least three words. *)
Definition well_merged (l : list (list N)) : Prop :=
  Forall (fun s => s <> []) l /\
  Forall (fun s => (3 <= length (py_split s))%nat) (tl l).

(** Every repetition inside [r] repeats a pattern that consumes text. *)
Fixpoint loops_consume (r : regex) : Prop :=
  match r with
  | Str _ | Set_ _ _ => True
  | Cat r1 r2 | Alt r1 r2 => loops_consume r1 /\ loops_consume r2
  | Rep r' _ _ => consumes r' /\ loops_consume r'
  end.

(** The restorer from index [k] on: [_restore_protected_items self] is
    [restore_from 0 self]. *)
Definition restore_from (k : nat) (items : list (list N)) (text : list N) : list N :=
  fold_left (fun text (p : nat * list N) => py_replace (placeholder (fst p)) (snd p) text)
            (combine (seq k (length items)) items) text.

(** A text made of code points other than the underscore and of
    placeholders with indices from [lo] on. *)
Inductive Prot (lo : nat) : list N -> Prop :=
| P_nil : Prot lo []
| P_chr c x : c <> ch "_" -> Prot lo x -> Prot lo (c :: x)
| P_ph j x : (lo <= j)%nat -> Prot lo x -> Prot lo (placeholder j ++ x).

(** What is left of such a text at any position, also inside one of its
    placeholders. *)
Inductive Tail (lo : nat) : list N -> Prop :=
| T_prot y : Prot lo y -> Tail lo y
| T_in j a t y :
    (lo <= j)%nat -> a ++ t = placeholder j -> Prot lo y -> Tail lo (t ++ y).

(** The patterns applied by [_protect_special_patterns], in its order. *)
Definition protection_cascade : list regex :=
  [pat_ellipsis; pat_url; pat_email; pat_date; abbr_pattern; pat_num_dot;
   pat_guj_matra_dot].

(** A text with no whitespace at its start, resp. its end. *)
Definition no_lead (s : str) : Prop :=
  forall c s', s = c :: s' -> py_isspace c = false.

Definition no_trail (s : str) : Prop :=
  forall s' c, s = s' ++ [c] -> py_isspace c = false.

(** A non-empty text with whitespace at neither end. *)
Definition tight (s : str) : Prop := s <> [] /\ no_lead s /\ no_trail s.




(** [needle in hay], for two texts. *)
Fixpoint contains (needle hay : str) : bool :=
  match strip_prefix needle hay with
  | Some _ => true
  | None =>
    match hay with
    | [] => false
    | _ :: hay' => contains needle hay'
    end
  end.

(** [needle] occurs in [hay] directly in front of a code point for which
    [P] holds. *)
Fixpoint contains_before (needle : str) (P : N -> bool) (hay : str) : bool :=
  match strip_prefix needle hay with
  | Some (d :: _) => P d
  | _ => false
  end
  || match hay with
     | [] => false
     | _ :: hay' => contains_before needle P hay'
     end.

(** One of the characters of the boundary set. *)
Definition is_boundary (c : N) : bool :=
  (c =? ch ".") || (c =? ch "!") || (c =? ch "?") || (c =? 0x0964).

(** The merger in the words of its description: starting from an empty
    accepted list, a sentence with fewer than 3 words is joined by a single
    space to the last accepted sentence when there is one; otherwise it
    becomes a new entry. *)
Definition accept (accepted : list str) (sentence : str) : list str :=
  if negb (Nat.eqb (length accepted) 0) && (length (py_split sentence) <? 3)%nat
  then removelast accepted ++ [last accepted [] ++ [ch " "] ++ sentence]
  else accepted ++ [sentence].

Fixpoint merger (accepted candidates : list str) : list str :=
  match candidates with
  | [] => accepted
  | sentence :: rest => merger (accept accepted sentence) rest
  end.

(** The candidate sentences [tokenize] hands to the merger. *)
Definition candidates_of (text : str) : list str :=
  let (protected_text, self) := _protect_special_patterns [] text in
  _split_into_sentences self protected_text.

(* ===================================================================== *)
(** ** The driver: [calculate_text_metrics] *)
(* ===================================================================== *)

(** [all_words], filled by [all_words.extend(s.split())] for each sentence. *)
Definition all_words (sentences : list (list N)) : list (list N) :=
  flat_map py_split sentences.

(** The integers [calculate_text_metrics] computes; [unique_words] is
    [len(set(all_words))].  The three ratios it returns beside them are
    floating-point quotients of these integers
    ([total_words / total_sentences], [total_chars / total_words] and
    [unique_words / total_words], each replaced by 0 when its divisor is 0)
    and are not modelled. *)
Record text_metrics : Type := {
  total_sentences : nat;
  total_words : nat;
  total_chars : nat;
  unique_words : nat
}.

Definition calculate_text_metrics (sentences : list (list N)) : text_metrics :=
  {| total_sentences := length sentences;
     total_words := list_sum (map (fun s => length (py_split s)) sentences);
     total_chars := list_sum (map (fun s => length s) sentences);
     unique_words := length (nodup (list_eq_dec N.eq_dec) (all_words sentences)) |}.

(* ===================================================================== *)
(** ** Further predicates *)
(* ===================================================================== *)

(** The code points of a text that are not whitespace, in order. *)
Definition non_space (s : list N) : list N :=
  filter (fun c => negb (py_isspace c)) s.

(** Every code point of every match of [r] is in [P]. *)
Fixpoint all_chars (P : N -> Prop) (r : regex) : Prop :=
  match r with
  | Str w => Forall P w
  | Set_ neg items => forall c, in_set neg items c = true -> P c
  | Cat r1 r2 | Alt r1 r2 => all_chars P r1 /\ all_chars P r2
  | Rep r' _ _ => all_chars P r'
  end.

(** [Exp lo st p t]: the protected text [p], made of code points other
    than the underscore and of placeholders with indices from [lo] on, stands
    for the text [t] when each placeholder is read as its item in the store
    [st]. *)
Inductive Exp (lo : nat) (st : list (list N)) : list N -> list N -> Prop :=
| E_nil : Exp lo st [] []
| E_chr c p t : c <> ch "_" -> Exp lo st p t -> Exp lo st (c :: p) (c :: t)
| E_ph j w p t :
    (lo <= j)%nat -> nth_error st j = Some w -> Exp lo st p t ->
    Exp lo st (placeholder j ++ p) (w ++ t).

(** A code point that occurs in no placeholder: a dot, a hyphen, a slash,
    or one outside ASCII. *)
Definition foreign (c : N) : Prop :=
  c = ch "." \/ c = ch "-" \/ c = ch "/" \/ 0x80 <= c.

(** The shape of the list [re.split] returns for the boundary pattern:
    pieces of text alternating with single boundary characters, a piece
    first and last. *)
Fixpoint alternating (parts : list (list N)) : Prop :=
  match parts with
  | [] => False
  | [_] => True
  | _ :: b :: tl => (exists c, b = [c] /\ is_boundary c = true) /\ alternating tl
  end.

(** The state of the protector between two statements, for a text with no
    underscore, no [@] and no colon: the protected text stands for the
    text, it holds no [@] and no colon, and no stored item holds an
    underscore. *)
Definition stands_for (text : list N) (ts : list N * list (list N)) : Prop :=
  Exp 0 (snd ts) (fst ts) text
  /\ Forall (fun c => c <> ch "@" /\ c <> ch ":") (fst ts)
  /\ Forall (Forall (fun c => c <> ch "_")) (snd ts).

Arguments placeholder : simpl never.
Arguments py_replace : simpl never.
Arguments py_str_of_nat : simpl never.
Arguments u8 : simpl never.
Arguments match_here : simpl never.
Arguments match_group : simpl never.
Arguments _create_placeholder : simpl never.

Ltac open_pattern :=
  cbv [protection_cascade pat_url pat_email pat_date pat_ellipsis pat_num_dot
       pat_guj_matra_dot abbr_pattern boundary_group boundary_tail abbreviations months
       re_digit re_word re_space re_dot plus star opt between];
  cbn [cats alts map starts_with ends_with needs consumes].

(* ===================================================================== *)
(** ** The matcher and the relation [Matches] *)
(* ===================================================================== *)

Lemma strip_prefix_app w : forall s rest, strip_prefix w s = Some rest -> s = w ++ rest.
Proof.
  induction w as [|a w IH]; simpl; intros s rest H.
  - congruence.
  - destruct s as [|c s]; [discriminate|].
    destruct (a =? c) eqn:E; [|discriminate].
    apply N.eqb_eq in E. subst c. f_equal. now apply IH.
Qed.

Lemma strip_prefix_complete w : forall rest, strip_prefix w (w ++ rest) = Some rest.
Proof.
  induction w as [|a w IH]; simpl; intros rest; [reflexivity|].
  now rewrite N.eqb_refl.
Qed.

Lemma rep_sound r step :
  (forall s rest, In rest (step s) -> exists w, s = w ++ rest /\ Matches r w) ->
  forall fuel lo hi s rest,
    In rest (rep step fuel lo hi s) ->
    exists w, s = w ++ rest /\ Matches (Rep r lo hi) w.
Proof.
  intros Hstep.
  assert (Hstop : forall lo hi s rest,
             In rest (if Nat.eqb lo 0 then [s] else []) ->
             exists w, s = w ++ rest /\ Matches (Rep r lo hi) w).
  { intros lo hi s rest H. destruct lo; simpl in H; [|contradiction].
    destruct H as [<-|[]]. exists []. split; [reflexivity|constructor]. }
  induction fuel as [|fuel IH]; intros lo hi s rest H; simpl in H.
  - now apply Hstop.
  - assert (Hgo : In rest (flat_map (rep step fuel (Nat.pred lo) (option_map Nat.pred hi))
                                     (step s) ++ (if Nat.eqb lo 0 then [s] else [])) ->
                  hi <> Some O ->
                  exists w, s = w ++ rest /\ Matches (Rep r lo hi) w).
    { intros H' Hhi. apply in_app_or in H'. destruct H' as [H'|H'].
      - apply in_flat_map in H'. destruct H' as (s1 & H1 & H2).
        apply Hstep in H1. destruct H1 as (w1 & -> & M1).
        apply IH in H2. destruct H2 as (w2 & -> & M2).
        exists (w1 ++ w2). split; [now rewrite app_assoc|].
        now apply M_RepStep.
      - now apply Hstop. }
    destruct hi as [[|h]|].
    + now apply Hstop.
    + apply Hgo; [exact H|discriminate].
    + apply Hgo; [exact H|discriminate].
Qed.

Lemma ends_sound r :
  forall s rest, In rest (ends r s) -> exists w, s = w ++ rest /\ Matches r w.
Proof.
  induction r as [w|neg items|r1 IH1 r2 IH2|r1 IH1 r2 IH2|r IH lo hi];
    intros s rest H; cbn [ends] in H.
  - destruct (strip_prefix w s) as [rest'|] eqn:E; [|contradiction].
    destruct H as [<-|[]]. exists w. split; [now apply strip_prefix_app|constructor].
  - destruct s as [|c s']; [contradiction|].
    destruct (in_set neg items c) eqn:E; [|contradiction].
    destruct H as [<-|[]]. exists [c]. split; [reflexivity|now constructor].
  - apply in_flat_map in H. destruct H as (s1 & H1 & H2).
    apply IH1 in H1. destruct H1 as (w1 & -> & M1).
    apply IH2 in H2. destruct H2 as (w2 & -> & M2).
    exists (w1 ++ w2). split; [now rewrite app_assoc|now constructor].
  - apply in_app_or in H. destruct H as [H|H].
    + apply IH1 in H. destruct H as (w & -> & M). exists w. split; [reflexivity|now apply M_AltL].
    + apply IH2 in H. destruct H as (w & -> & M). exists w. split; [reflexivity|now apply M_AltR].
  - eapply rep_sound; [exact IH|exact H].
Qed.

Lemma match_here_sound r s rest :
  match_here r s = Some rest -> exists w, s = w ++ rest /\ Matches r w.
Proof.
  unfold match_here. intros H. apply ends_sound.
  destruct (ends r s); simpl in H; [discriminate|]. injection H as ->. now left.
Qed.

Lemma starts_with_spec P r w :
  starts_with P r -> Matches r w -> exists c w', w = c :: w' /\ P c.
Proof.
  intros H M. revert H.
  induction M as [w|neg items c Hc|r1 r2 w1 w2 M1 IH1 M2 IH2|r1 r2 w M IH|r1 r2 w M IH
                 |r hi|r lo hi w1 w2 Hhi M1 IH1 M2 IH2]; simpl; intros H.
  - destruct w as [|c w]; [contradiction|]. now exists c, w.
  - exists c, []. split; [reflexivity|now apply H].
  - destruct (IH1 H) as (c & w' & -> & Pc). now exists c, (w' ++ w2).
  - now apply IH.
  - now apply IH.
  - now destruct H.
  - destruct H as [_ H]. destruct (IH1 H) as (c & w' & -> & Pc). now exists c, (w' ++ w2).
Qed.

Lemma ends_with_spec_aux P r w :
  Matches r w ->
  (ends_with P r -> exists w' c, w = w' ++ [c] /\ P c) /\
  (forall r' lo hi, r = Rep r' lo hi -> ends_with P r' ->
     w = [] \/ exists w' c, w = w' ++ [c] /\ P c).
Proof.
  induction 1 as [w|neg items c Hc|r1 r2 w1 w2 M1 IH1 M2 IH2|r1 r2 w M IH|r1 r2 w M IH
                 |r hi|r lo hi w1 w2 Hhi M1 IH1 M2 IH2]; simpl.
  - split; [|discriminate]. intros H.
    destruct (rev w) as [|c t] eqn:E; [contradiction|].
    exists (rev t), c. split; [|exact H].
    rewrite <- (rev_involutive w), E. reflexivity.
  - split; [|discriminate]. intros H. exists [], c. split; [reflexivity|now apply H].
  - split; [|discriminate]. intros H.
    destruct (proj1 IH2 H) as (w' & c & -> & Pc).
    exists (w1 ++ w'), c. split; [now rewrite app_assoc|exact Pc].
  - split; [|discriminate]. intros [H _]. now apply IH.
  - split; [|discriminate]. intros [_ H]. now apply IH.
  - split; [now intros []|]. intros; now left.
  - assert (G : ends_with P r -> exists w' c, w1 ++ w2 = w' ++ [c] /\ P c).
    { intros H. destruct (proj2 IH2 _ _ _ eq_refl H) as [->|(w' & c & -> & Pc)].
      - rewrite app_nil_r. now apply IH1.
      - exists (w1 ++ w'), c. split; [now rewrite app_assoc|exact Pc]. }
    split.
    + intros [_ H]. now apply G.
    + intros r' lo' hi' E H. injection E as -> -> ->. right. now apply G.
Qed.

Lemma ends_with_spec P r w :
  ends_with P r -> Matches r w -> exists w' c, w = w' ++ [c] /\ P c.
Proof. intros H M. now apply (ends_with_spec_aux P M). Qed.

Lemma needs_spec P r w : needs P r -> Matches r w -> exists c, In c w /\ P c.
Proof.
  intros H M. revert H.
  induction M as [w|neg items c Hc|r1 r2 w1 w2 M1 IH1 M2 IH2|r1 r2 w M IH|r1 r2 w M IH
                 |r hi|r lo hi w1 w2 Hhi M1 IH1 M2 IH2]; simpl; intros H.
  - exact H.
  - exists c. split; [now left|now apply H].
  - destruct H as [H|H].
    + destruct (IH1 H) as (c & Hc & Pc). exists c. split; [apply in_or_app; now left|exact Pc].
    + destruct (IH2 H) as (c & Hc & Pc). exists c. split; [apply in_or_app; now right|exact Pc].
  - now apply IH.
  - now apply IH.
  - now destruct H.
  - destruct H as [_ H]. destruct (IH1 H) as (c & Hc & Pc).
    exists c. split; [apply in_or_app; now left|exact Pc].
Qed.

Lemma ends_shorter r s rest :
  consumes r -> In rest (ends r s) -> (length rest < length s)%nat.
Proof.
  intros Hc H. apply ends_sound in H. destruct H as (w & -> & M).
  destruct (starts_with_spec _ Hc M) as (c & w' & -> & _).
  simpl. rewrite length_app. lia.
Qed.

Lemma starts_with_weaken (P Q : N -> Prop) r :
  (forall c, P c -> Q c) -> starts_with P r -> starts_with Q r.
Proof.
  intros PQ. induction r as [w|neg items|r1 IH1 r2 IH2|r1 IH1 r2 IH2|r IH lo hi]; simpl.
  - destruct w; [tauto|apply PQ].
  - intros H c Hc. now apply PQ, H.
  - exact IH1.
  - tauto.
  - tauto.
Qed.

(* ===================================================================== *)
(** ** Whitespace at the ends of a text *)
(* ===================================================================== *)

Lemma no_lead_nil : no_lead [].
Proof. intros c s' H. discriminate. Qed.

Lemma no_trail_nil : no_trail [].
Proof. intros s' c H. destruct s'; discriminate. Qed.

Lemma no_lead_app a b : no_lead a -> no_lead b -> no_lead (a ++ b).
Proof.
  intros Ha Hb c s' H. destruct a as [|x a]; simpl in H.
  - now apply (Hb c s').
  - injection H as -> _. now apply (Ha c a).
Qed.

Lemma last_cases (A : Type) (l : list A) : l = [] \/ exists l' x, l = l' ++ [x].
Proof.
  induction l as [|x l' _] using rev_ind; [now left|right; now exists l', x].
Qed.

Lemma no_trail_app a b : no_trail a -> no_trail b -> no_trail (a ++ b).
Proof.
  intros Ha Hb s' c H.
  destruct (last_cases b) as [->|(b' & x & ->)].
  - rewrite app_nil_r in H. now apply (Ha s' c).
  - rewrite app_assoc in H. apply app_inj_tail in H. destruct H as [_ ->].
    now apply (Hb b' c).
Qed.

Lemma no_trail_suffix a b : no_trail (a ++ b) -> no_trail b.
Proof.
  intros H s' c ->. apply (H (a ++ s') c). now rewrite app_assoc.
Qed.

Lemma no_lead_cons c s : py_isspace c = false -> no_lead (c :: s).
Proof. intros H x s' E. now injection E as <- _. Qed.

Lemma no_trail_single c : py_isspace c = false -> no_trail [c].
Proof.
  intros H s' x E. destruct s' as [|y s']; simpl in E.
  - now injection E as <-.
  - injection E as _ E. destruct s'; discriminate.
Qed.

Lemma tight_app a b : tight a -> tight b -> tight (a ++ b).
Proof.
  intros (Na & La & Ta) (Nb & Lb & Tb). repeat split.
  - destruct a; [contradiction|discriminate].
  - now apply no_lead_app.
  - now apply no_trail_app.
Qed.

(** A text that a pattern matches, when all its matches begin and end
    outside whitespace. *)
Lemma matches_tight r w :
  starts_with (fun c => py_isspace c = false) r ->
  ends_with (fun c => py_isspace c = false) r ->
  Matches r w -> tight w.
Proof.
  intros Hs He M.
  destruct (starts_with_spec _ Hs M) as (c & w' & E & Hc).
  destruct (ends_with_spec _ He M) as (w'' & d & E' & Hd).
  repeat split.
  - rewrite E. discriminate.
  - intros x s' E2. rewrite E in E2. now injection E2 as <- _.
  - intros s' x E2. rewrite E' in E2. apply app_inj_tail in E2. now destruct E2 as [_ <-].
Qed.

Lemma py_lstrip_split s :
  exists ws, s = ws ++ py_lstrip s /\ Forall (fun c => py_isspace c = true) ws.
Proof.
  induction s as [|c s IH]; simpl.
  - exists []. now split.
  - destruct (py_isspace c) eqn:E.
    + destruct IH as (ws & E1 & F). exists (c :: ws). split.
      * simpl. now f_equal.
      * now constructor.
    + exists []. now split.
Qed.

Lemma py_lstrip_no_lead s : no_lead (py_lstrip s).
Proof.
  induction s as [|c s IH]; simpl.
  - apply no_lead_nil.
  - destruct (py_isspace c) eqn:E; [exact IH|now apply no_lead_cons].
Qed.

Lemma py_lstrip_id s : no_lead s -> py_lstrip s = s.
Proof.
  destruct s as [|c s]; [reflexivity|]. intros H. simpl.
  now rewrite (H c s eq_refl).
Qed.

Lemma py_rstrip_split s :
  exists ws, s = py_rstrip s ++ ws /\ Forall (fun c => py_isspace c = true) ws.
Proof.
  unfold py_rstrip. destruct (py_lstrip_split (rev s)) as (ws & E & F).
  exists (rev ws). split.
  - rewrite <- rev_app_distr, <- E. now rewrite rev_involutive.
  - apply Forall_rev. exact F.
Qed.

Lemma py_rstrip_no_trail s : no_trail (py_rstrip s).
Proof.
  intros s' c E. unfold py_rstrip in E.
  apply (f_equal (@rev N)) in E. rewrite rev_involutive, rev_app_distr in E. simpl in E.
  exact (py_lstrip_no_lead (rev s) E).
Qed.

Lemma py_rstrip_id s : no_trail s -> py_rstrip s = s.
Proof.
  intros H. unfold py_rstrip. rewrite py_lstrip_id; [apply rev_involutive|].
  intros c s' E. apply (H (rev s') c).
  rewrite <- (rev_involutive s), E. reflexivity.
Qed.

Lemma py_rstrip_no_lead s : no_lead s -> no_lead (py_rstrip s).
Proof.
  intros H c s' E. destruct (py_rstrip_split s) as (ws & E1 & _).
  rewrite E in E1. apply (H c (s' ++ ws)). exact E1.
Qed.

Lemma py_strip_tight s : py_strip s = [] \/ tight (py_strip s).
Proof.
  destruct (py_strip s) as [|c t] eqn:E; [now left|right].
  rewrite <- E. repeat split.
  - rewrite E. discriminate.
  - apply py_rstrip_no_lead, py_lstrip_no_lead.
  - apply py_rstrip_no_trail.
Qed.

Lemma py_strip_id s : no_lead s -> no_trail s -> py_strip s = s.
Proof.
  intros L T. unfold py_strip. rewrite (py_lstrip_id L). now apply py_rstrip_id.
Qed.

(* ===================================================================== *)
(** ** [str.replace] and the restorer keep the ends of a text *)
(* ===================================================================== *)

Lemma replace_loop_nonempty old new fuel s :
  new <> [] -> s <> [] -> replace_loop old new fuel s <> [].
Proof.
  intros Hn Hs. destruct fuel as [|fuel]; simpl; [exact Hs|].
  destruct (strip_prefix old s) as [rest|].
  - destruct new; [contradiction|discriminate].
  - destruct s; [contradiction|discriminate].
Qed.

Lemma replace_loop_no_lead old new fuel s :
  no_lead new -> new <> [] -> no_lead s -> no_lead (replace_loop old new fuel s).
Proof.
  intros Ln Hn Ls. destruct fuel as [|fuel]; simpl; [exact Ls|].
  destruct (strip_prefix old s) as [rest|].
  - destruct new as [|x new]; [contradiction|].
    simpl. apply no_lead_cons. exact (Ln x new eq_refl).
  - destruct s as [|c s]; [apply no_lead_nil|].
    apply no_lead_cons. exact (Ls c s eq_refl).
Qed.

Lemma no_trail_cons c s : s <> [] -> no_trail s -> no_trail (c :: s).
Proof.
  intros Hs Ts s' x E. destruct s' as [|y s']; simpl in E.
  - injection E as _ ->. contradiction.
  - injection E as _ ->. now apply (Ts s' x).
Qed.

Lemma replace_loop_no_trail old new :
  no_trail new -> new <> [] ->
  forall fuel s, no_trail s -> no_trail (replace_loop old new fuel s).
Proof.
  intros Tn Hn. induction fuel as [|fuel IH]; intros s Ts; simpl; [exact Ts|].
  destruct (strip_prefix old s) as [rest|] eqn:E.
  - apply strip_prefix_app in E. subst s.
    apply no_trail_app; [exact Tn|]. apply IH. now apply no_trail_suffix in Ts.
  - destruct s as [|c s]; [apply no_trail_nil|].
    destruct s as [|d s].
    + change (no_trail ([c] ++ replace_loop old new fuel [])).
      apply no_trail_app; [exact Ts|]. apply IH, no_trail_nil.
    + apply no_trail_cons.
      * apply replace_loop_nonempty; [exact Hn|discriminate].
      * apply IH. now apply (no_trail_suffix [c]).
Qed.

Lemma py_replace_tight old new s :
  old <> [] -> tight new -> tight s -> tight (py_replace old new s).
Proof.
  intros Ho (Nn & Ln & Tn) (Ns & Ls & Ts).
  destruct old as [|a old]; [contradiction|]. unfold py_replace.
  repeat split.
  - now apply replace_loop_nonempty.
  - now apply replace_loop_no_lead.
  - now apply replace_loop_no_trail.
Qed.

Lemma py_replace_nil old new : old <> [] -> py_replace old new [] = [].
Proof. destruct old; [contradiction|reflexivity]. Qed.

Lemma placeholder_unfold idx :
  placeholder idx = u8 "_" ++ u8 "_PROTECTED_" ++ py_str_of_nat idx ++ u8 "__".
Proof. reflexivity. Qed.

Lemma placeholder_nonempty idx : placeholder idx <> [].
Proof. rewrite placeholder_unfold. discriminate. Qed.

Lemma restore_fold_tight items :
  Forall tight items ->
  forall k text, tight text ->
    tight (fold_left (fun text (p : nat * str) =>
                        py_replace (placeholder (fst p)) (snd p) text)
                     (combine (seq k (length items)) items) text).
Proof.
  induction 1 as [|item items Hi _ IH]; intros k text Ht; simpl; [exact Ht|].
  apply IH. apply py_replace_tight; [apply placeholder_nonempty|exact Hi|exact Ht].
Qed.

Lemma restore_tight self text :
  Forall tight self -> tight text -> tight (_restore_protected_items self text).
Proof. intros. now apply restore_fold_tight. Qed.

Lemma restore_fold_nil items :
  forall k, fold_left (fun text (p : nat * str) =>
                         py_replace (placeholder (fst p)) (snd p) text)
                      (combine (seq k (length items)) items) [] = [].
Proof.
  induction items as [|item items IH]; intros k; simpl; [reflexivity|].
  rewrite py_replace_nil by apply placeholder_nonempty. apply IH.
Qed.

Lemma restore_nil self : _restore_protected_items self [] = [].
Proof. apply restore_fold_nil. Qed.

(* ===================================================================== *)
(** ** The course of [re.sub] *)
(* ===================================================================== *)

Lemma firstn_consumed (w rest : str) :
  firstn (length (w ++ rest) - length rest) (w ++ rest) = w.
Proof.
  rewrite length_app. replace (length w + length rest - length rest)%nat with (length w) by lia.
  rewrite firstn_app, firstn_all, Nat.sub_diag. simpl. apply app_nil_r.
Qed.

Lemma match_here_consumes r s rest :
  consumes r -> match_here r s = Some rest ->
  exists w, s = w ++ rest /\ Matches r w /\ w <> [] /\ (length rest < length s)%nat.
Proof.
  intros Hc H. destruct (match_here_sound _ _ H) as (w & -> & M).
  destruct (starts_with_spec _ Hc M) as (c & w' & -> & _).
  exists (c :: w'). repeat split; try assumption; try discriminate.
  simpl. rewrite length_app. lia.
Qed.

Lemma create_placeholder_eq self m :
  _create_placeholder self m = (placeholder (length self), self ++ [m]).
Proof.
  unfold _create_placeholder. rewrite length_app. simpl.
  now replace (length self + 1 - 1)%nat with (length self) by lia.
Qed.

Lemma sub_loop_run r :
  consumes r ->
  forall fuel s st, (length s < fuel)%nat ->
    SubRun r s st (fst (sub_loop r _create_placeholder fuel s st))
                  (snd (sub_loop r _create_placeholder fuel s st)).
Proof.
  intros Hc. induction fuel as [|fuel IH]; intros s st Hf; [lia|].
  cbn [sub_loop]. destruct (match_here r s) as [rest|] eqn:E.
  - destruct (match_here_consumes _ _ Hc E) as (w & -> & M & Hw & Hlt).
    apply Nat.ltb_lt in Hlt. rewrite Hlt. apply Nat.ltb_lt in Hlt.
    rewrite firstn_consumed, create_placeholder_eq. cbv beta iota.
    specialize (IH rest (st ++ [w])).
    destruct (sub_loop r _create_placeholder fuel rest (st ++ [w])) as [out st2].
    cbn [fst snd] in *. apply SR_match; try assumption. apply IH. lia.
  - destruct s as [|c s].
    + constructor.
    + specialize (IH s st).
      destruct (sub_loop r _create_placeholder fuel s st) as [out st1].
      cbn [fst snd] in *. apply SR_copy; [exact E|]. apply IH. simpl in Hf. lia.
Qed.

Lemma re_sub_run r s st :
  consumes r ->
  SubRun r s st (fst (re_sub r _create_placeholder s st))
                (snd (re_sub r _create_placeholder s st)).
Proof. intros Hc. unfold re_sub. apply sub_loop_run; [exact Hc|lia]. Qed.

Lemma SubRun_store r s st out st' :
  SubRun r s st out st' -> exists items, st' = st ++ items /\ Forall (Matches r) items.
Proof.
  induction 1 as [st|c s st out st' E _ IH|w rest st out st' E M Hw _ IH].
  - exists []. split; [now rewrite app_nil_r|constructor].
  - exact IH.
  - destruct IH as (items & -> & F). exists (w :: items). split.
    + now rewrite <- app_assoc.
    + now constructor.
Qed.

(** Where the pattern matches nowhere, [re.sub] changes nothing. *)
Lemma SubRun_no_match r (P : N -> Prop) s st out st' :
  needs P r -> (forall c, In c s -> ~ P c) ->
  SubRun r s st out st' -> out = s /\ st' = st.
Proof.
  intros Hn Hs R. induction R as [st|c s st out st' E _ IH|w rest st out st' E M Hw _ IH].
  - now split.
  - destruct IH as [-> ->]; [|now split]. intros x Hx. apply Hs. now right.
  - exfalso. destruct (needs_spec _ Hn M) as (c & Hc & Pc).
    apply (Hs c); [|exact Pc]. apply in_or_app. now left.
Qed.

(* ===================================================================== *)
(** ** The fuel of the loops is enough *)
(* ===================================================================== *)

(** The loops of the model count down from the length of the text left;
    whenever each turn consumes text, any larger count gives the same
    result. *)

Lemma rep_fuel_enough step :
  (forall s rest, In rest (step s) -> (length rest < length s)%nat) ->
  forall f1 f2 lo hi s, (length s < f1)%nat -> (length s < f2)%nat ->
    rep step f1 lo hi s = rep step f2 lo hi s.
Proof.
  intros Hstep. induction f1 as [|f1 IH]; intros f2 lo hi s H1 H2; [lia|].
  destruct f2 as [|f2]; [lia|]. cbn [rep].
  assert (E : flat_map (rep step f1 (Nat.pred lo) (option_map Nat.pred hi)) (step s)
              = flat_map (rep step f2 (Nat.pred lo) (option_map Nat.pred hi)) (step s)).
  { rewrite !flat_map_concat_map. f_equal. apply map_ext_in.
    intros rest Hr. apply Hstep in Hr. apply IH; lia. }
  destruct hi as [[|h]|]; now rewrite ?E.
Qed.

Lemma ends_rep_fuel r lo hi s fuel :
  consumes r -> (length s < fuel)%nat ->
  rep (ends r) fuel lo hi s = ends (Rep r lo hi) s.
Proof.
  intros Hc Hf. cbn [ends]. apply rep_fuel_enough; [|exact Hf|lia].
  intros s' rest. now apply ends_shorter.
Qed.

Lemma sub_loop_fuel_enough r repl :
  consumes r ->
  forall f1 f2 s st, (length s < f1)%nat -> (length s < f2)%nat ->
    sub_loop r repl f1 s st = sub_loop r repl f2 s st.
Proof.
  intros Hc. induction f1 as [|f1 IH]; intros f2 s st H1 H2; [lia|].
  destruct f2 as [|f2]; [lia|]. cbn [sub_loop].
  destruct (match_here r s) as [rest|] eqn:E.
  - destruct (match_here_consumes _ _ Hc E) as (w & -> & M & Hw & Hlt).
    apply Nat.ltb_lt in Hlt. rewrite Hlt. apply Nat.ltb_lt in Hlt.
    destruct (repl st _) as [ph st1]. rewrite (IH f2) by lia. reflexivity.
  - destruct s as [|c s]; [reflexivity|]. simpl in H1, H2.
    rewrite (IH f2) by lia. reflexivity.
Qed.



Lemma replace_loop_fuel_enough old new :
  old <> [] ->
  forall f1 f2 s, (length s < f1)%nat -> (length s < f2)%nat ->
    replace_loop old new f1 s = replace_loop old new f2 s.
Proof.
  intros Ho. induction f1 as [|f1 IH]; intros f2 s H1 H2; [lia|].
  destruct f2 as [|f2]; [lia|]. cbn [replace_loop].
  destruct (strip_prefix old s) as [rest|] eqn:E.
  - apply strip_prefix_app in E. subst s. rewrite length_app in H1, H2.
    destruct old as [|a old]; [contradiction|]. simpl in H1, H2.
    rewrite (IH f2) by lia. reflexivity.
  - destruct s as [|c s]; [reflexivity|]. simpl in H1, H2.
    rewrite (IH f2) by lia. reflexivity.
Qed.

(* ===================================================================== *)
(** ** Facts about the patterns *)
(* ===================================================================== *)

Lemma cascade_consumes : Forall consumes protection_cascade.
Proof.
  unfold consumes. open_pattern.
  repeat constructor; try discriminate; try (vm_compute; exact I).
Qed.


Lemma patterns_loops_consume :
  Forall loops_consume (Cat boundary_group boundary_tail :: protection_cascade).
Proof.
  unfold consumes. open_pattern. cbn [loops_consume consumes starts_with].
  repeat constructor; try discriminate; try (vm_compute; exact I).
Qed.

Lemma needs_dot_ellipsis : needs (fun c => c = ch ".") pat_ellipsis.
Proof. open_pattern. exists (ch "."). split; [in_literal|reflexivity]. Qed.

Lemma needs_dot_url : needs (fun c => c = ch ".") pat_url.
Proof.
  open_pattern. do 4 right. left. exists (ch "."). split; [in_literal|reflexivity].
Qed.

Lemma needs_dot_email : needs (fun c => c = ch ".") pat_email.
Proof.
  open_pattern. do 2 right. left. split; [discriminate|]. right.
  exists (ch "."). split; [in_literal|reflexivity].
Qed.

Lemma needs_decimal_date : needs (fun c => py_isdecimal c = true) pat_date.
Proof.
  open_pattern. split; left; (split; [discriminate|]);
    intros c H; cbn [in_set existsb in_citem xorb] in H; now rewrite orb_false_r in H.
Qed.

Lemma needs_dot_abbr : needs (fun c => c = ch ".") abbr_pattern.
Proof.
  open_pattern. repeat split; (exists (ch "."); split; [in_literal|reflexivity]).
Qed.

Lemma needs_dot_num_dot : needs (fun c => c = ch ".") pat_num_dot.
Proof. open_pattern. right. exists (ch "."). split; [in_literal|reflexivity]. Qed.

Lemma needs_dot_matra : needs (fun c => c = ch ".") pat_guj_matra_dot.
Proof. open_pattern. right. exists (ch "."). split; [in_literal|reflexivity]. Qed.

Lemma needs_boundary : needs (fun c => is_boundary c = true) (Cat boundary_group boundary_tail).
Proof.
  open_pattern. left. intros c H. cbn [in_set existsb in_citem xorb] in H.
  unfold is_boundary. norm_ch. bool_arith.
Qed.

Lemma protect_stages self text :
  _protect_special_patterns self text =
  fold_left (fun ts p => stage p ts) protection_cascade (text, self).
Proof.
  unfold _protect_special_patterns, protection_cascade, stage. cbn [fold_left fst snd].
  repeat match goal with
  | |- context [re_sub ?p _create_placeholder ?t ?s] =>
    destruct (re_sub p _create_placeholder t s); cbn [fst snd]
  end.
  reflexivity.
Qed.

Section Edges.

(** No alphanumeric and no decimal digit of Unicode is whitespace. *)
Hypothesis alnum_not_space : forall c, uni_alnum c = true -> py_isspace c = false.
Hypothesis decimal_not_space : forall c, uni_decimal c = true -> py_isspace c = false.

Lemma py_isword_not_space c : py_isword c = true -> py_isspace c = false.
Proof.
  unfold py_isword. destruct (c <? 0x80) eqn:E; [|apply alnum_not_space].
  unfold ascii_alnum, ascii_digit, py_isspace. intros H. bool_arith.
Qed.

Lemma py_isdecimal_not_space c : py_isdecimal c = true -> py_isspace c = false.
Proof.
  unfold py_isdecimal. destruct (c <? 0x80) eqn:E; [|apply decimal_not_space].
  unfold ascii_digit, py_isspace. intros H. bool_arith.
Qed.

Lemma cascade_starts :
  Forall (starts_with (fun c => py_isspace c = false)) protection_cascade.
Proof.
  open_pattern.
  repeat constructor; try discriminate; try (vm_compute; reflexivity);
    try (class_fact py_isword_not_space py_isdecimal_not_space).
Qed.

Lemma cascade_ends :
  Forall (ends_with (fun c => py_isspace c = false)) protection_cascade.
Proof.
  open_pattern.
  repeat constructor; try discriminate; try (vm_compute; reflexivity);
    try (class_fact py_isword_not_space py_isdecimal_not_space).
Qed.

Lemma protect_store_tight self text :
  Forall tight self -> Forall tight (snd (_protect_special_patterns self text)).
Proof.
  rewrite protect_stages. revert text self.
  assert (G : forall ps, Forall (starts_with (fun c => py_isspace c = false)) ps ->
                         Forall (ends_with (fun c => py_isspace c = false)) ps ->
                         Forall consumes ps ->
              forall ts, Forall tight (snd ts) ->
                         Forall tight (snd (fold_left (fun ts p => stage p ts) ps ts))).
  { induction ps as [|p ps IH]; intros Hs He Hc ts Ht; simpl; [exact Ht|].
    inversion Hs; inversion He; inversion Hc; subst.
    apply IH; try assumption.
    unfold stage.
    destruct (SubRun_store (re_sub_run p (fst ts) (snd ts) ltac:(assumption)))
      as (items & -> & F).
    apply Forall_app. split; [exact Ht|].
    eapply Forall_impl; [|exact F]. intros w M. now apply (matches_tight (r:=p)). }
  intros text self H.
  apply G; [apply cascade_starts|apply cascade_ends|apply cascade_consumes|exact H].
Qed.

Lemma split_pairs_tight self :
  Forall tight self -> forall parts, Forall tight (split_pairs self parts).
Proof.
  intros Hs.
  assert (G : forall parts, Forall tight (split_pairs self parts) /\
                            forall x, Forall tight (split_pairs self (x :: parts))).
  { induction parts as [|p1 parts [IH1 IH2]]; (split; [|intros x]); cbn [split_pairs];
      try constructor; try assumption; try apply IH2.
    destruct (_restore_protected_items self (py_strip (x ++ p1))) as [|c t] eqn:E;
      [exact IH1|].
    constructor; [|exact IH1]. rewrite <- E. apply restore_tight; [exact Hs|].
    destruct (py_strip_tight (x ++ p1)) as [E0|T]; [|exact T].
    rewrite E0, restore_nil in E. discriminate. }
  intros parts. apply G.
Qed.

Lemma split_into_sentences_tight self text :
  Forall tight self -> Forall tight (_split_into_sentences self text).
Proof.
  intros Hs. unfold _split_into_sentences.
  set (parts := re_split boundary_group boundary_tail text).
  destruct (_ && _); [|now apply split_pairs_tight].
  destruct (_restore_protected_items self (py_strip (last parts []))) as [|c t] eqn:E;
    [now apply split_pairs_tight|].
  apply Forall_app. split; [now apply split_pairs_tight|].
  constructor; [|constructor]. rewrite <- E. apply restore_tight; [exact Hs|].
  destruct (py_strip_tight (last parts [])) as [E0|T]; [|exact T].
  rewrite E0, restore_nil in E. discriminate.
Qed.

Lemma candidates_tight text : Forall tight (candidates_of text).
Proof.
  unfold candidates_of.
  pose proof (protect_store_tight (self:=[]) text (Forall_nil _)) as H.
  destruct (_protect_special_patterns [] text) as [ptext self].
  now apply split_into_sentences_tight.
Qed.

End Edges.

(* ===================================================================== *)
(** ** The merger *)
(* ===================================================================== *)

Lemma no_lead_app_l a b : a <> [] -> no_lead a -> no_lead (a ++ b).
Proof.
  intros Ha La c s' E. destruct a as [|x a]; [contradiction|].
  simpl in E. injection E as -> _. exact (La c a eq_refl).
Qed.

Lemma no_trail_app_r a b : b <> [] -> no_trail b -> no_trail (a ++ b).
Proof.
  intros Hb Tb s' c E. destruct (last_cases b) as [->|(b' & x & ->)]; [contradiction|].
  rewrite app_assoc in E. apply app_inj_tail in E. destruct E as [_ ->].
  exact (Tb b' c eq_refl).
Qed.

Lemma tight_join a s : tight a -> tight s -> tight (a ++ [ch " "] ++ s).
Proof.
  intros (Na & La & Ta) (Ns & Ls & Ts). repeat split.
  - destruct a; [contradiction|discriminate].
  - now apply no_lead_app_l.
  - rewrite app_assoc. now apply no_trail_app_r.
Qed.

Lemma Forall_removelast (A : Type) (P : A -> Prop) (l : list A) :
  Forall P l -> Forall P (removelast l).
Proof.
  intros H. destruct (last_cases l) as [->|(l' & x & ->)]; [exact H|].
  rewrite removelast_last. apply Forall_app in H. tauto.
Qed.

Lemma Forall_last (A : Type) (P : A -> Prop) (l : list A) (d : A) :
  l <> [] -> Forall P l -> P (last l d).
Proof.
  intros Hl H. destruct (last_cases l) as [->|(l' & x & ->)]; [contradiction|].
  rewrite last_last. apply Forall_app in H. destruct H as [_ H]. now inversion H.
Qed.

Lemma merge_step_accept merged sentence :
  Forall tight merged -> merge_step merged sentence = accept merged sentence.
Proof.
  intros H. unfold merge_step, accept. destruct merged as [|m merged]; [reflexivity|].
  cbn [length Nat.eqb negb andb].
  destruct (length (py_split sentence) <? 3)%nat; [|reflexivity].
  rewrite py_rstrip_id; [reflexivity|].
  apply (Forall_last (P:=tight)) with (d:=[]) in H; [|discriminate]. apply H.
Qed.

Lemma accept_tight accepted sentence :
  Forall tight accepted -> tight sentence -> Forall tight (accept accepted sentence).
Proof.
  intros Ha Hs. unfold accept.
  destruct (negb (Nat.eqb (length accepted) 0) && _) eqn:E.
  - apply Forall_app. split; [now apply Forall_removelast|].
    constructor; [|constructor]. apply tight_join; [|exact Hs].
    apply Forall_last; [|exact Ha]. intros ->. discriminate.
  - apply Forall_app. split; [exact Ha|]. constructor; [exact Hs|constructor].
Qed.

Lemma merge_fold_merger candidates :
  Forall tight candidates ->
  forall accepted, Forall tight accepted ->
    fold_left merge_step candidates accepted = merger accepted candidates.
Proof.
  induction 1 as [|s candidates Hs _ IH]; intros accepted Ha; simpl; [reflexivity|].
  rewrite merge_step_accept by exact Ha. apply IH. now apply accept_tight.
Qed.

Lemma merger_tight candidates :
  Forall tight candidates ->
  forall accepted, Forall tight accepted -> Forall tight (merger accepted candidates).
Proof.
  induction 1 as [|s candidates Hs _ IH]; intros accepted Ha; simpl; [exact Ha|].
  apply IH. now apply accept_tight.
Qed.

(** *** Counting words *)

Lemma split_words_trailing ws :
  Forall (fun c => py_isspace c = true) ws ->
  forall s cur, split_words (s ++ ws) cur = split_words s cur.
Proof.
  intros F.
  assert (G : forall cur, split_words ws cur = split_words [] cur).
  { induction F as [|c ws Hc _ IH]; intros cur; [reflexivity|].
    simpl. rewrite Hc. destruct cur; rewrite IH; reflexivity. }
  induction s as [|c s IH]; intros cur; simpl.
  - apply G.
  - destruct (py_isspace c); [destruct cur|]; now rewrite IH.
Qed.

Lemma split_words_join b sp :
  py_isspace sp = true ->
  forall a cur,
    length (split_words (a ++ sp :: b) cur)
    = (length (split_words a cur) + length (split_words b []))%nat.
Proof.
  intros Hsp. induction a as [|c a IH]; intros cur; simpl.
  - rewrite Hsp. destruct cur; reflexivity.
  - destruct (py_isspace c); [destruct cur|]; simpl; now rewrite IH.
Qed.

Lemma words_rstrip s : py_split (py_rstrip s) = py_split s.
Proof.
  destruct (py_rstrip_split s) as (ws & E & F). unfold py_split.
  rewrite E at 2. symmetry. now apply split_words_trailing.
Qed.

Lemma words_merged a s :
  length (py_split (py_rstrip a ++ u8 " " ++ s))
  = (length (py_split a) + length (py_split s))%nat.
Proof.
  unfold py_split. change (u8 " " ++ s) with (ch " " :: s).
  rewrite split_words_join by reflexivity.
  change (split_words (py_rstrip a) []) with (py_split (py_rstrip a)).
  now rewrite words_rstrip.
Qed.

Lemma merge_step_well_merged merged sentence :
  sentence <> [] -> well_merged merged -> well_merged (merge_step merged sentence).
Proof.
  intros Hs [Hn Hw]. unfold merge_step.
  destruct merged as [|m merged].
  { split; [now constructor|constructor]. }
  destruct (length (py_split sentence) <? 3)%nat eqn:E.
  - set (new := py_rstrip (last (m :: merged) []) ++ u8 " " ++ sentence).
    assert (Hnew : new <> []).
    { unfold new. destruct (py_rstrip _); discriminate. }
    split.
    + apply Forall_app. split; [now apply Forall_removelast|]. now repeat constructor.
    + destruct merged as [|m' merged]; [constructor|].
      change (Forall (fun s => (3 <= length (py_split s))%nat)
                     (removelast (m' :: merged) ++ [new])).
      simpl in Hw. apply Forall_app. split; [now apply Forall_removelast|].
      constructor; [|constructor]. unfold new. rewrite words_merged.
      apply (Forall_last (P:=fun s => (3 <= length (py_split s))%nat)) with (d:=[]) in Hw;
        [|discriminate].
      change (last (m :: m' :: merged) []) with (last (m' :: merged) []). lia.
  - split.
    + apply Forall_app. split; [exact Hn|]. now repeat constructor.
    + simpl. apply Forall_app. split; [exact Hw|].
      constructor; [|constructor]. apply Nat.ltb_ge in E. exact E.
Qed.

Lemma merge_well_merged sentences :
  Forall (fun s => s <> []) sentences -> well_merged (_merge_short_sentences sentences).
Proof.
  unfold _merge_short_sentences.
  assert (G : forall l, Forall (fun s => s <> []) l ->
              forall acc, well_merged acc -> well_merged (fold_left merge_step l acc)).
  { induction 1 as [|s l Hs _ IH]; intros acc Ha; simpl; [exact Ha|].
    apply IH. now apply merge_step_well_merged. }
  intros H. apply G; [exact H|]. split; constructor.
Qed.

Lemma split_pairs_nonempty self :
  forall parts, Forall (fun s => s <> []) (split_pairs self parts).
Proof.
  assert (G : forall parts, Forall (fun s => s <> []) (split_pairs self parts) /\
                            forall x, Forall (fun s => s <> []) (split_pairs self (x :: parts))).
  { induction parts as [|p1 parts [IH1 IH2]]; (split; [|intros x]); cbn [split_pairs];
      try constructor; try assumption; try apply IH2.
    destruct (_restore_protected_items self (py_strip (x ++ p1))) as [|c t];
      [exact IH1|]. constructor; [discriminate|exact IH1]. }
  intros parts. apply G.
Qed.

Lemma split_into_sentences_nonempty self text :
  Forall (fun s => s <> []) (_split_into_sentences self text).
Proof.
  unfold _split_into_sentences.
  set (parts := re_split boundary_group boundary_tail text).
  destruct (_ && _); [|apply split_pairs_nonempty].
  destruct (_restore_protected_items self (py_strip (last parts []))) as [|c t];
    [apply split_pairs_nonempty|].
  apply Forall_app. split; [apply split_pairs_nonempty|].
  constructor; [discriminate|constructor].
Qed.

Lemma tokenize_unfold self text :
  tokenize self text =
  (_merge_short_sentences (candidates_of text), snd (_protect_special_patterns [] text)).
Proof.
  unfold tokenize, candidates_of.
  now destruct (_protect_special_patterns [] text).
Qed.

(* ===================================================================== *)
(** ** Digits followed by a dot *)
(* ===================================================================== *)

Lemma digits_of_uint_digits d :
  Forall (fun c => ascii_digit c = true) (digits_of_uint d).
Proof. induction d; simpl; constructor; (reflexivity || assumption). Qed.

Lemma py_str_of_nat_digits n : Forall (fun c => ascii_digit c = true) (py_str_of_nat n).
Proof. apply digits_of_uint_digits. Qed.











(* ===================================================================== *)
(** ** Texts in which a pattern matches nowhere *)
(* ===================================================================== *)

Lemma ends_no_match r (P : N -> Prop) s :
  needs P r -> (forall c, In c s -> ~ P c) -> ends r s = [].
Proof.
  intros Hn Hs. destruct (ends r s) as [|rest l] eqn:E; [reflexivity|exfalso].
  assert (H : In rest (ends r s)) by (rewrite E; now left).
  apply ends_sound in H. destruct H as (w & -> & M).
  destruct (needs_spec _ Hn M) as (c & Hc & Pc).
  apply (Hs c); [apply in_or_app; now left|exact Pc].
Qed.

Lemma match_group_no_match g t (P : N -> Prop) s :
  needs P (Cat g t) -> (forall c, In c s -> ~ P c) -> match_group g t s = None.
Proof.
  intros Hn Hs. pose proof (@ends_no_match (Cat g t) P s Hn Hs) as E.
  cbn [ends] in E. unfold match_group.
  induction (ends g s) as [|s1 l IH]; [reflexivity|].
  simpl in *. apply app_eq_nil in E. destruct E as [E1 E2].
  rewrite E1. simpl. now apply IH.
Qed.

Lemma split_loop_no_match g t (P : N -> Prop) :
  needs P (Cat g t) ->
  forall fuel s cur, (forall c, In c s -> ~ P c) -> (length s < fuel)%nat ->
    split_loop g t fuel s cur = [cur ++ s].
Proof.
  intros Hn. induction fuel as [|fuel IH]; intros s cur Hs Hf; [lia|].
  cbn [split_loop]. rewrite (@match_group_no_match g t P s Hn Hs).
  destruct s as [|c s]; [now rewrite app_nil_r|].
  rewrite IH.
  - now rewrite <- app_assoc.
  - intros x Hx. apply Hs. now right.
  - simpl in Hf. lia.
Qed.

Lemma re_sub_no_match r (P : N -> Prop) s st :
  consumes r -> needs P r -> (forall c, In c s -> ~ P c) ->
  re_sub r _create_placeholder s st = (s, st).
Proof.
  intros Hc Hn Hs. pose proof (@re_sub_run r s st Hc) as R.
  destruct (@SubRun_no_match r P _ _ _ _ Hn Hs R) as [E1 E2].
  destruct (re_sub r _create_placeholder s st). simpl in *. now subst.
Qed.

Lemma protect_no_match self text :
  (forall c, In c text -> c <> ch ".") ->
  (forall c, In c text -> py_isdecimal c = false) ->
  _protect_special_patterns self text = (text, self).
Proof.
  intros Hdot Hdec.
  assert (Hdec' : forall c, In c text -> ~ py_isdecimal c = true).
  { intros c Hc. rewrite (Hdec c Hc). discriminate. }
  pose proof cascade_consumes as C. unfold protection_cascade in C.
  repeat match type of C with
  | Forall _ (_ :: _) => let C1 := fresh "C" in inversion C as [|? ? C1 C']; subst; clear C; rename C' into C
  end.
  unfold _protect_special_patterns.
  rewrite (@re_sub_no_match _ (fun c => c = ch ".") text self) by
    (try assumption; apply needs_dot_ellipsis).
  rewrite (@re_sub_no_match _ (fun c => c = ch ".") text self) by
    (try assumption; apply needs_dot_url).
  rewrite (@re_sub_no_match _ (fun c => c = ch ".") text self) by
    (try assumption; apply needs_dot_email).
  rewrite (@re_sub_no_match _ (fun c => py_isdecimal c = true) text self) by
    (try assumption; apply needs_decimal_date).
  rewrite (@re_sub_no_match _ (fun c => c = ch ".") text self) by
    (try assumption; apply needs_dot_abbr).
  rewrite (@re_sub_no_match _ (fun c => c = ch ".") text self) by
    (try assumption; apply needs_dot_num_dot).
  rewrite (@re_sub_no_match _ (fun c => c = ch ".") text self) by
    (try assumption; apply needs_dot_matra).
  reflexivity.
Qed.

Lemma split_no_boundary self text :
  (forall c, In c text -> is_boundary c = false) ->
  _split_into_sentences self text =
  match py_strip text with
  | [] => []
  | _ => match _restore_protected_items self (py_strip text) with
         | [] => []
         | _ => [_restore_protected_items self (py_strip text)]
         end
  end.
Proof.
  intros Hb. unfold _split_into_sentences, re_split.
  rewrite (@split_loop_no_match _ _ (fun c => is_boundary c = true) needs_boundary).
  - cbn [app split_pairs length Nat.modulo Nat.divmod fst snd Nat.sub Nat.eqb andb last].
    destruct (py_strip text) as [|c0 core]; [reflexivity|].
    cbn [length Nat.eqb negb].
    destruct (_restore_protected_items self (c0 :: core)); reflexivity.
  - intros c Hc. rewrite (Hb c Hc). discriminate.
  - lia.
Qed.

(* ===================================================================== *)
(** ** Restoring a text that holds no underscore of its own *)
(* ===================================================================== *)

Lemma placeholder_cons j :
  placeholder j
  = 95 :: 95 :: 80 :: 82 :: 79 :: 84 :: 69 :: 67 :: 84 :: 69 :: 68 :: 95
       :: (py_str_of_nat j ++ [95; 95]).
Proof. reflexivity. Qed.

Lemma digits_of_uint_inj d1 : forall d2, digits_of_uint d1 = digits_of_uint d2 -> d1 = d2.
Proof.
  induction d1; destruct d2; simpl; intros E; try discriminate; try reflexivity;
    injection E as E; f_equal; now apply IHd1.
Qed.

Lemma py_str_of_nat_inj k j : py_str_of_nat k = py_str_of_nat j -> k = j.
Proof.
  intros E. apply DecimalNat.Unsigned.to_uint_inj. now apply digits_of_uint_inj.
Qed.

Lemma py_str_of_nat_cons n :
  exists d t, py_str_of_nat n = d :: t /\ ascii_digit d = true.
Proof.
  pose proof (py_str_of_nat_digits n) as F. unfold py_str_of_nat in *.
  destruct (Nat.to_uint n) eqn:E; simpl in *;
    try (inversion F; subst; eexists _, _; split; [reflexivity|assumption]).
  exfalso. pose proof (DecimalNat.Unsigned.of_to n) as H. rewrite E in H.
  simpl in H. subst n. discriminate.
Qed.

Lemma digit_not_underscore d : ascii_digit d = true -> (95 =? d) = false.
Proof. unfold ascii_digit. intros H. bool_arith. Qed.

Lemma digits_prefix_eq A :
  Forall (fun c => ascii_digit c = true) A ->
  forall B y rest, Forall (fun c => ascii_digit c = true) B ->
    strip_prefix (A ++ [95; 95]) ((B ++ [95; 95]) ++ y) = Some rest -> A = B.
Proof.
  induction 1 as [|a A Ha _ IH]; intros B y rest FB H.
  - destruct B as [|b B]; [reflexivity|]. inversion FB; subst.
    cbn [app strip_prefix] in H.
    rewrite (@digit_not_underscore b) in H by assumption. discriminate.
  - destruct B as [|b B]; cbn [app strip_prefix] in H.
    + rewrite N.eqb_sym, (@digit_not_underscore a) in H by assumption. discriminate.
    + inversion FB; subst. destruct (a =? b) eqn:E; [|discriminate].
      apply N.eqb_eq in E. subst b. f_equal. now apply (IH B y rest).
Qed.

Lemma placeholder_prefix_eq k j y :
  strip_prefix (placeholder k) (placeholder j ++ y) <> None -> k = j.
Proof.
  rewrite !placeholder_cons. cbn [app strip_prefix]. rewrite !N.eqb_refl.
  destruct (strip_prefix _ _) as [rest|] eqn:E; [intros _|congruence].
  apply py_str_of_nat_inj.
  eapply digits_prefix_eq; [apply py_str_of_nat_digits|apply py_str_of_nat_digits|exact E].
Qed.

Lemma strip_prefix_head_ne a w c s : a <> c -> strip_prefix (a :: w) (c :: s) = None.
Proof. intros H. cbn [strip_prefix]. apply N.eqb_neq in H. now rewrite H. Qed.

(** A text of the form [Prot] does not begin with the letters of a
    placeholder behind its two underscores. *)
Lemma letters_not_prefix lo u d rest :
  Forall (fun c => c <> 95) u -> d <> 95 ->
  forall y, Prot lo y -> strip_prefix (u ++ 95 :: d :: rest) y = None.
Proof.
  intros Fu Hd. induction Fu as [|c u Hc _ IH]; intros y Hy.
  - destruct Hy as [|c x Hc _|j x _ _]; cbn [app strip_prefix].
    + reflexivity.
    + change (ch "_") with 95 in Hc. apply N.eqb_neq in Hc. now rewrite N.eqb_sym, Hc.
    + rewrite placeholder_cons. cbn [app]. rewrite N.eqb_refl.
      apply N.eqb_neq in Hd. now rewrite Hd.
  - destruct Hy as [|c' x Hc' Hx|j x _ _]; cbn [app strip_prefix].
    + reflexivity.
    + destruct (c =? c'); [now apply IH|reflexivity].
    + rewrite placeholder_cons. cbn [app]. apply N.eqb_neq in Hc. now rewrite Hc.
Qed.

Lemma no_occurrence_prot lo k y :
  (k < lo)%nat -> Prot lo y -> strip_prefix (placeholder k) y = None.
Proof.
  intros Hk Hy. destruct Hy as [|c x Hc _|j x Hj _].
  - now rewrite placeholder_cons.
  - rewrite placeholder_cons. apply strip_prefix_head_ne. intros E. now apply Hc.
  - destruct (strip_prefix (placeholder k) (placeholder j ++ x)) eqn:E; [|reflexivity].
    assert (k = j) by (apply (@placeholder_prefix_eq k j x); congruence). lia.
Qed.

Lemma digits_suffix_cases D :
  Forall (fun c => ascii_digit c = true) D ->
  forall a t, a ++ t = D ++ [95; 95] ->
    (exists c t', t = c :: t' /\ c <> 95) \/ t = [95; 95] \/ t = [95] \/ t = [].
Proof.
  induction 1 as [|d D Hd _ IH]; intros a t E; cbn [app] in E.
  - destruct a as [|x a]; cbn [app] in E; [subst; now right; left|].
    injection E as _ E.
    destruct a as [|x' a]; cbn [app] in E; [subst; now right; right; left|].
    injection E as _ E. apply app_eq_nil in E. destruct E as [_ ->]. now right; right; right.
  - destruct a as [|x a]; cbn [app] in E.
    + subst t. left. exists d, (D ++ [95; 95]). split; [reflexivity|].
      intros ->. discriminate.
    + injection E as _ E. now apply (IH a t).
Qed.

Lemma placeholder_suffix_cases j a t :
  a ++ t = placeholder j ->
  t = placeholder j
  \/ (exists c t', t = c :: t' /\ c <> 95)
  \/ (exists c t', t = 95 :: c :: t' /\ c <> 95)
  \/ t = [95; 95] \/ t = [95] \/ t = [].
Proof.
  intros E. destruct a as [|x0 a]; [now left|right].
  rewrite placeholder_cons in E. cbn [app] in E. injection E as _ E.
  destruct (py_str_of_nat_cons j) as (d & D & ED & Hd).
  pose proof (py_str_of_nat_digits j) as FD.
  assert (Hd' : d <> 95) by (intros ->; discriminate).
  destruct a as [|x1 a]; cbn [app] in E;
    [subst t; right; left; exists 80; eexists; split; [reflexivity|discriminate]|].
  injection E as _ E.
  do 9 (destruct a as [|? a]; cbn [app] in E;
        [subst t; left; eexists _, _; split; [reflexivity|discriminate]|];
        injection E as _ E).
  destruct a as [|x a]; cbn [app] in E.
  - subst t. right. left. rewrite ED. exists d. eexists. split; [reflexivity|exact Hd'].
  - injection E as _ E.
    destruct (digits_suffix_cases FD _ _ E) as [H|[H|[H|H]]]; tauto.
Qed.

Lemma no_occurrence_tail lo k z :
  (k < lo)%nat -> Tail lo z -> strip_prefix (placeholder k) z = None.
Proof.
  intros Hk Hz. destruct Hz as [y Hy|j a t y Hj E Hy].
  { now apply (@no_occurrence_prot lo). }
  destruct (py_str_of_nat_cons k) as (d & D & ED & Hd).
  assert (Hd' : d <> 95) by (intros ->; discriminate).
  destruct (placeholder_suffix_cases _ _ E)
    as [->|[(c & t' & -> & Hc)|[(c & t' & -> & Hc)|[->|[->| ->]]]]].
  - destruct (strip_prefix (placeholder k) (placeholder j ++ y)) eqn:E1; [|reflexivity].
    assert (k = j) by (apply (@placeholder_prefix_eq k j y); congruence). lia.
  - rewrite placeholder_cons. apply strip_prefix_head_ne. congruence.
  - rewrite placeholder_cons. cbn [app strip_prefix]. rewrite N.eqb_refl.
    apply N.eqb_neq in Hc. now rewrite N.eqb_sym, Hc.
  - rewrite placeholder_cons, ED. cbn [app strip_prefix]. rewrite !N.eqb_refl.
    apply (@letters_not_prefix lo [80; 82; 79; 84; 69; 67; 84; 69; 68] d (D ++ [95; 95]));
      try assumption.
    repeat constructor; discriminate.
  - rewrite placeholder_cons. cbn [app strip_prefix]. rewrite N.eqb_refl.
    destruct Hy as [|c x Hc _|j' x _ _].
    + reflexivity.
    + change (ch "_") with 95 in Hc. apply N.eqb_neq in Hc. now rewrite N.eqb_sym, Hc.
    + now rewrite placeholder_cons.
  - now apply (@no_occurrence_prot lo).
Qed.

Lemma Tail_step lo c z : Tail lo (c :: z) -> Tail lo z.
Proof.
  intros H.
  assert (G : forall y, Prot lo y -> y = c :: z -> Tail lo z).
  { intros y Hy. destruct Hy as [|c' x Hc Hx|j x Hj Hx]; intros E.
    - discriminate.
    - injection E as -> ->. now apply T_prot.
    - rewrite placeholder_cons in E. cbn [app] in E. injection E as Ec <-.
      apply (@T_in lo j [95]
               (95 :: 80 :: 82 :: 79 :: 84 :: 69 :: 67 :: 84 :: 69 :: 68 :: 95
                   :: (py_str_of_nat j ++ [95; 95])) x Hj);
        [now rewrite placeholder_cons|exact Hx]. }
  inversion H as [y Hy E|j a t y Hj E Hy E'].
  - now apply (G (c :: z)).
  - destruct t as [|c' t]; cbn [app] in E'.
    + subst y. now apply (G (c :: z)).
    + injection E' as -> <-. apply (@T_in lo j (a ++ [c]) t y Hj); [|exact Hy].
      now rewrite <- app_assoc.
Qed.

(** Where the placeholder of [k] does not occur, replacing it changes
    nothing. *)
Lemma replace_loop_absent lo k w :
  (k < lo)%nat ->
  forall fuel z, Tail lo z -> replace_loop (placeholder k) w fuel z = z.
Proof.
  intros Hk. induction fuel as [|fuel IH]; intros z Hz; [reflexivity|].
  cbn [replace_loop]. rewrite (no_occurrence_tail Hk Hz).
  destruct z as [|c z]; [reflexivity|]. f_equal. apply IH. now apply Tail_step in Hz.
Qed.

Lemma py_replace_skip k w pre x :
  Forall (fun c => c <> ch "_") pre ->
  py_replace (placeholder k) w (pre ++ x) = pre ++ py_replace (placeholder k) w x.
Proof.
  induction 1 as [|c pre Hc _ IH]; [reflexivity|].
  cbn [app]. rewrite <- IH. unfold py_replace. rewrite placeholder_cons.
  cbn [length replace_loop]. rewrite strip_prefix_head_ne; [reflexivity|].
  intros E. now apply Hc.
Qed.

Lemma py_replace_here lo k w x :
  (k < lo)%nat -> Prot lo x ->
  py_replace (placeholder k) w (placeholder k ++ x) = w ++ x.
Proof.
  intros Hk Hx. unfold py_replace.
  destruct (placeholder k) as [|a t] eqn:E; [now destruct (placeholder_nonempty E)|].
  rewrite <- E. cbn [replace_loop]. rewrite strip_prefix_complete.
  f_equal. apply (replace_loop_absent w Hk). now apply T_prot.
Qed.

Lemma Prot_weaken lo lo' x : (lo <= lo')%nat -> Prot lo' x -> Prot lo x.
Proof.
  intros Hl. induction 1 as [|c x Hc _ IH|j x Hj _ IH].
  - constructor.
  - now constructor.
  - constructor; [lia|exact IH].
Qed.

Lemma SubRun_prot r s st out st' :
  SubRun r s st out st' -> Forall (fun c => c <> ch "_") s -> Prot (length st) out.
Proof.
  induction 1 as [st|c s st out st' E _ IH|w rest st out st' E M Hw _ IH]; intros F.
  - constructor.
  - inversion F; subst. constructor; [assumption|now apply IH].
  - apply Forall_app in F. destruct F as [_ F].
    constructor; [lia|]. apply Prot_weaken with (lo':=length (st ++ [w])).
    + rewrite length_app. simpl. lia.
    + now apply IH.
Qed.

Lemma restore_from_cons k w items x :
  restore_from k (w :: items) x = restore_from (S k) items (py_replace (placeholder k) w x).
Proof. reflexivity. Qed.

(** Restoring with the items a run of [re.sub] has stored gives back the
    text the run started from. *)
Lemma SubRun_restore r s st out st' :
  SubRun r s st out st' ->
  Forall (fun c => c <> ch "_") s ->
  forall items pre, st' = st ++ items -> Forall (fun c => c <> ch "_") pre ->
    restore_from (length st) items (pre ++ out) = pre ++ s.
Proof.
  induction 1 as [st|c s st out st' E _ IH|w rest st out st' E M Hw R IH];
    intros F items pre Est Fp.
  - rewrite <- (app_nil_r st) in Est at 1. apply app_inv_head in Est. now subst items.
  - inversion F; subst.
    change (pre ++ c :: out) with (pre ++ [c] ++ out).
    change (pre ++ c :: s) with (pre ++ [c] ++ s). rewrite !app_assoc.
    apply IH; try assumption; try reflexivity.
    apply Forall_app. split; [exact Fp|now repeat constructor].
  - apply Forall_app in F. destruct F as [Fw Fr].
    destruct (SubRun_store R) as (items' & E' & _).
    assert (Ei : items = w :: items').
    { rewrite E', <- app_assoc in Est. now apply app_inv_head in Est. }
    subst items. rewrite restore_from_cons.
    rewrite (py_replace_skip _ _ _ Fp).
    rewrite (@py_replace_here (S (length st)) (length st) w out) by
      (try lia; replace (S (length st)) with (length (st ++ [w]))
         by (rewrite length_app; simpl; lia); now apply (SubRun_prot R)).
    rewrite !app_assoc.
    replace (S (length st)) with (length (st ++ [w])) by (rewrite length_app; simpl; lia).
    apply IH; try assumption.
    apply Forall_app. now split.
Qed.

Lemma SubRun_Forall (Q : N -> Prop) r s st out st' :
  (forall j, Forall Q (placeholder j)) ->
  SubRun r s st out st' -> Forall Q s -> Forall Q out.
Proof.
  intros Hp. induction 1 as [st|c s st out st' E _ IH|w rest st out st' E M Hw _ IH];
    intros F.
  - constructor.
  - inversion F; subst. constructor; [assumption|now apply IH].
  - apply Forall_app in F. destruct F as [_ F].
    apply Forall_app. split; [apply Hp|now apply IH].
Qed.

Lemma placeholder_no_boundary j : Forall (fun c => is_boundary c = false) (placeholder j).
Proof.
  rewrite placeholder_cons. repeat (constructor; [reflexivity|]).
  apply Forall_app. split; [|now repeat constructor].
  eapply Forall_impl; [|apply py_str_of_nat_digits].
  intros c H. unfold ascii_digit in H. unfold is_boundary. norm_ch. bool_arith.
Qed.

(** *** Whitespace around the text *)

Lemma strip_prefix_no_underscore p :
  forall ws, Forall (fun c => c <> 95) ws -> strip_prefix (p ++ [95]) ws = None.
Proof.
  induction p as [|a p IH]; intros ws Fw; cbn [app strip_prefix].
  - destruct Fw as [|c ws Hc _]; [reflexivity|].
    apply N.eqb_neq in Hc. now rewrite N.eqb_sym, Hc.
  - destruct Fw as [|c ws Hc Fw]; [reflexivity|].
    destruct (a =? c); [now apply IH|reflexivity].
Qed.

Lemma strip_prefix_suffix ws :
  Forall (fun c => c <> 95) ws ->
  forall p x, strip_prefix (p ++ [95]) (x ++ ws)
              = option_map (fun r => r ++ ws) (strip_prefix (p ++ [95]) x).
Proof.
  intros Fw. induction p as [|a p IH]; intros x.
  - destruct x as [|c x].
    + change ([] ++ ws) with ws. now rewrite (strip_prefix_no_underscore [] Fw).
    + cbn [app strip_prefix]. destruct (95 =? c); reflexivity.
  - destruct x as [|c x].
    + change ([] ++ ws) with ws. rewrite (strip_prefix_no_underscore (a :: p) Fw). reflexivity.
    + cbn [app strip_prefix]. destruct (a =? c); [apply IH|reflexivity].
Qed.

Lemma replace_loop_no_underscore p new :
  forall fuel ws, Forall (fun c => c <> 95) ws -> replace_loop (p ++ [95]) new fuel ws = ws.
Proof.
  induction fuel as [|fuel IH]; intros ws Fw; [reflexivity|].
  cbn [replace_loop]. rewrite (strip_prefix_no_underscore p Fw).
  destruct Fw as [|c ws Hc Fw]; [reflexivity|]. f_equal. now apply IH.
Qed.

Lemma replace_loop_suffix p new ws :
  Forall (fun c => c <> 95) ws ->
  forall f1 f2 x, (length (x ++ ws) < f1)%nat -> (length x < f2)%nat ->
    replace_loop (p ++ [95]) new f1 (x ++ ws) = replace_loop (p ++ [95]) new f2 x ++ ws.
Proof.
  intros Fw. induction f1 as [|f1 IH]; intros f2 x H1 H2; [lia|].
  destruct f2 as [|f2]; [lia|]. cbn [replace_loop].
  rewrite (strip_prefix_suffix Fw).
  destruct (strip_prefix (p ++ [95]) x) as [r|] eqn:E; cbn [option_map].
  - apply strip_prefix_app in E. subst x.
    rewrite !length_app in H1. rewrite length_app in H2.
    rewrite length_app in H2. simpl in H1, H2.
    rewrite <- app_assoc. f_equal. apply IH; rewrite ?length_app; lia.
  - destruct x as [|c x].
    + cbn [app]. destruct ws as [|c ws]; [reflexivity|].
      inversion Fw; subst. f_equal.
      now apply replace_loop_no_underscore.
    + cbn [app]. f_equal. apply IH; simpl in *; lia.
Qed.

Lemma placeholder_snoc j : exists p, placeholder j = p ++ [95].
Proof.
  exists (u8 "__PROTECTED_" ++ py_str_of_nat j ++ [95]).
  unfold placeholder. now rewrite <- !app_assoc.
Qed.

Lemma py_replace_suffix k w x ws :
  Forall (fun c => c <> ch "_") ws ->
  py_replace (placeholder k) w (x ++ ws) = py_replace (placeholder k) w x ++ ws.
Proof.
  intros Fw. destruct (placeholder_snoc k) as (p & E). rewrite E.
  unfold py_replace. destruct (p ++ [95]) as [|a t] eqn:E1;
    [destruct p; discriminate|]. rewrite <- E1.
  apply replace_loop_suffix; [exact Fw|lia|lia].
Qed.

Lemma restore_from_prefix items :
  forall k pre x, Forall (fun c => c <> ch "_") pre ->
    restore_from k items (pre ++ x) = pre ++ restore_from k items x.
Proof.
  induction items as [|w items IH]; intros k pre x F; [reflexivity|].
  rewrite !restore_from_cons, py_replace_skip by exact F. now apply IH.
Qed.

Lemma restore_from_suffix items :
  forall k x ws, Forall (fun c => c <> ch "_") ws ->
    restore_from k items (x ++ ws) = restore_from k items x ++ ws.
Proof.
  induction items as [|w items IH]; intros k x ws F; [reflexivity|].
  rewrite !restore_from_cons, py_replace_suffix by exact F. now apply IH.
Qed.

Lemma space_not_underscore ws :
  Forall (fun c => py_isspace c = true) ws -> Forall (fun c => c <> ch "_") ws.
Proof.
  intros F. eapply Forall_impl; [|exact F]. intros c H ->. discriminate.
Qed.

Lemma py_lstrip_spaces ws x :
  Forall (fun c => py_isspace c = true) ws -> py_lstrip (ws ++ x) = py_lstrip x.
Proof. induction 1 as [|c ws Hc _ IH]; [reflexivity|]. simpl. now rewrite Hc. Qed.

Lemma py_strip_around ws1 ws2 x :
  Forall (fun c => py_isspace c = true) ws1 ->
  Forall (fun c => py_isspace c = true) ws2 ->
  x = [] \/ tight x ->
  py_strip (ws1 ++ x ++ ws2) = x.
Proof.
  intros F1 F2 Hx. unfold py_strip. rewrite (py_lstrip_spaces _ F1).
  destruct Hx as [->|(Nx & Lx & Tx)].
  - cbn [app]. rewrite <- (app_nil_r ws2), (py_lstrip_spaces _ F2). reflexivity.
  - rewrite py_lstrip_id by (now apply no_lead_app_l).
    unfold py_rstrip. rewrite rev_app_distr.
    rewrite py_lstrip_spaces by (now apply Forall_rev).
    rewrite py_lstrip_id; [apply rev_involutive|].
    intros c s' E. apply (Tx (rev s') c).
    rewrite <- (rev_involutive x), E. reflexivity.
Qed.

Lemma py_strip_split s :
  exists ws1 ws2,
    s = ws1 ++ py_strip s ++ ws2
    /\ Forall (fun c => py_isspace c = true) ws1
    /\ Forall (fun c => py_isspace c = true) ws2.
Proof.
  destruct (py_lstrip_split s) as (ws1 & E1 & F1).
  destruct (py_rstrip_split (py_lstrip s)) as (ws2 & E2 & F2).
  exists ws1, ws2. repeat split; try assumption.
  unfold py_strip. now rewrite <- E2.
Qed.

(** *** The protector on a text with no boundary punctuation *)

Lemma date_consumes : consumes pat_date.
Proof.
  pose proof cascade_consumes as C. unfold protection_cascade in C.
  do 3 (inversion C as [|? ? _ C']; subst; clear C; rename C' into C).
  now inversion C.
Qed.

Lemma protect_no_boundary self text :
  Forall (fun c => is_boundary c = false) text ->
  _protect_special_patterns self text = re_sub pat_date _create_placeholder text self.
Proof.
  intros F.
  assert (Hdot : forall s, Forall (fun c => is_boundary c = false) s ->
                           forall c, In c s -> ~ c = ch ".").
  { intros s Fs c Hc ->. rewrite Forall_forall in Fs. specialize (Fs _ Hc). discriminate. }
  pose proof cascade_consumes as C. unfold protection_cascade in C.
  repeat match type of C with
  | Forall _ (_ :: _) =>
    let C1 := fresh "C" in inversion C as [|? ? C1 C']; subst; clear C; rename C' into C
  end.
  unfold _protect_special_patterns.
  rewrite (@re_sub_no_match _ (fun c => c = ch ".") text self) by
    (try assumption; try apply needs_dot_ellipsis; now apply Hdot).
  rewrite (@re_sub_no_match _ (fun c => c = ch ".") text self) by
    (try assumption; try apply needs_dot_url; now apply Hdot).
  rewrite (@re_sub_no_match _ (fun c => c = ch ".") text self) by
    (try assumption; try apply needs_dot_email; now apply Hdot).
  pose proof (@re_sub_run pat_date text self date_consumes) as R.
  destruct (re_sub pat_date _create_placeholder text self) as [out st]. cbn [fst snd] in R.
  pose proof (SubRun_Forall placeholder_no_boundary R F) as Fo.
  rewrite (@re_sub_no_match _ (fun c => c = ch ".") out st) by
    (try assumption; try apply needs_dot_abbr; now apply Hdot).
  rewrite (@re_sub_no_match _ (fun c => c = ch ".") out st) by
    (try assumption; try apply needs_dot_num_dot; now apply Hdot).
  rewrite (@re_sub_no_match _ (fun c => c = ch ".") out st) by
    (try assumption; try apply needs_dot_matra; now apply Hdot).
  reflexivity.
Qed.

(* ===================================================================== *)
(** ** Restoring a text that does not hold [PROTECTED_] and a digit *)
(* ===================================================================== *)

Lemma contains_before_here needle P hay d rest :
  strip_prefix needle hay = Some (d :: rest) -> P d = true ->
  contains_before needle P hay = true.
Proof. intros H Hd. destruct hay; cbn [contains_before]; now rewrite H, Hd. Qed.

Lemma contains_before_behind needle P a :
  forall b, contains_before needle P b = true -> contains_before needle P (a ++ b) = true.
Proof.
  induction a as [|c a IH]; intros b H; [exact H|].
  cbn [app contains_before]. rewrite (IH b H).
  destruct (strip_prefix needle (c :: a ++ b)) as [[|d rest]|]; try reflexivity.
  apply orb_true_r.
Qed.

Lemma stem_digit_absent_behind a b :
  contains_before (u8 "PROTECTED_") ascii_digit (a ++ b) = false ->
  contains_before (u8 "PROTECTED_") ascii_digit b = false.
Proof.
  intros H. destruct (contains_before (u8 "PROTECTED_") ascii_digit b) eqn:E; [|reflexivity].
  now rewrite (contains_before_behind _ _ a _ E) in H.
Qed.

Lemma contains_stem_digit a d s' :
  ascii_digit d = true ->
  contains_before (u8 "PROTECTED_") ascii_digit (a ++ u8 "__PROTECTED_" ++ d :: s') = true.
Proof.
  intros Hd. apply contains_before_behind.
  change (u8 "__PROTECTED_" ++ d :: s') with ([95; 95] ++ u8 "PROTECTED_" ++ d :: s').
  apply contains_before_behind.
  apply (@contains_before_here _ _ _ d s'); [apply strip_prefix_complete|exact Hd].
Qed.

Lemma contains_stem_digit_here d s' :
  ascii_digit d = true ->
  contains_before (u8 "PROTECTED_") ascii_digit (u8 "__PROTECTED_" ++ d :: s') = true.
Proof. exact (@contains_stem_digit [] d s'). Qed.

(** Behind at most two code points in front of it, a text that starts
    with [__PROTECTED_] and a digit still holds [PROTECTED_] and the
    digit. *)
Lemma contains_stem_digit_tail b rest d s' :
  b ++ rest = u8 "__PROTECTED_" ++ d :: s' -> ascii_digit d = true ->
  (length b <= 2)%nat ->
  contains_before (u8 "PROTECTED_") ascii_digit rest = true.
Proof.
  intros E Hd Hb.
  change (u8 "__PROTECTED_" ++ d :: s') with (95 :: 95 :: u8 "PROTECTED_" ++ d :: s') in E.
  assert (H : contains_before (u8 "PROTECTED_") ascii_digit (u8 "PROTECTED_" ++ d :: s') = true)
    by (apply (@contains_before_here _ _ _ d s'); [apply strip_prefix_complete|exact Hd]).
  destruct b as [|b0 [|b1 [|b2 b]]]; cbn [app] in E; try (simpl in Hb; lia).
  - subst rest. now apply (contains_before_behind _ _ [95; 95]).
  - injection E as _ ->. now apply (contains_before_behind _ _ [95]).
  - injection E as _ _ ->. exact H.
Qed.

(** Code points other than the underscore in the result of [re.sub] are
    copied from the text. *)
Lemma SubRun_letters r u :
  Forall (fun c => c <> 95) u ->
  forall s st out st' rest,
    SubRun r s st out st' -> out = u ++ rest ->
    exists s', s = u ++ s' /\ SubRun r s' st rest st'.
Proof.
  induction 1 as [|a u Ha _ IH]; intros s st out st' rest R E.
  - exists s. cbn [app] in E. subst. now split.
  - revert E. destruct R as [st|c s st out st' Em R|w rest' st out st' Em M Hw R];
      cbn [app]; intros E.
    + discriminate.
    + injection E as -> ->. destruct (IH _ _ _ _ _ R eq_refl) as (s' & -> & R').
      exists s'. now split.
    + exfalso. rewrite placeholder_cons in E. cbn [app] in E.
      injection E as E _. now apply Ha.
Qed.

Lemma SubRun_head r s st out st' d rest :
  SubRun r s st out st' -> d <> 95 -> out = d :: rest ->
  exists s', s = d :: s' /\ SubRun r s' st rest st'.
Proof.
  intros R Hd E.
  destruct (@SubRun_letters r [d] ltac:(now repeat constructor) s st out st' rest R E)
    as (s' & -> & R').
  now exists s'.
Qed.

Lemma SubRun_letters_underscore r s st out st' u d rest :
  SubRun r s st out st' -> Forall (fun c => c <> 95) u -> d <> 95 ->
  out = u ++ 95 :: d :: rest -> exists s', s = u ++ 95 :: d :: s'.
Proof.
  intros R Fu Hd E.
  destruct (@SubRun_letters r u Fu s st out st' _ R E) as (s1 & -> & R1).
  remember (95 :: d :: rest) as o eqn:Eo.
  destruct R1 as [?|c0 s0 ? o0 ? Em R0|w rest' ? o0 ? Em M Hw R0].
  - discriminate.
  - injection Eo as -> Eo.
    destruct (SubRun_head R0 Hd Eo) as (s' & -> & _). now exists s'.
  - exfalso. rewrite placeholder_cons in Eo. cbn [app] in Eo.
    injection Eo as Eo _. now apply Hd.
Qed.

Lemma SubRun_underscore_letters r s st out st' c u d rest :
  SubRun r s st out st' -> c <> 95 -> Forall (fun c => c <> 95) u -> d <> 95 ->
  out = 95 :: c :: u ++ 95 :: d :: rest -> exists s', s = 95 :: c :: u ++ 95 :: d :: s'.
Proof.
  intros R Hc Fu Hd E. revert E.
  destruct R as [st|c0 s st out st' Em R|w rest' st out st' Em M Hw R]; intros E.
  - discriminate.
  - injection E as -> E.
    destruct (@SubRun_letters_underscore r s st out st' (c :: u) d rest R) as (s' & ->);
      try assumption; [now constructor|].
    now exists s'.
  - exfalso. rewrite placeholder_cons in E. cbn [app] in E.
    injection E as E _. now apply Hc.
Qed.

Ltac stem_case R E Hb v Hd L :=
  cbn [app] in Hb; subst v; cbn [app] in E;
  let s' := fresh "s'" in
  destruct (@SubRun_letters_underscore _ _ _ _ _ L _ _ R
              ltac:(repeat constructor; discriminate) Hd E) as (s' & ->);
  exists s'; reflexivity.

(** Where a placeholder occurs in the result of [re.sub], other than as
    the placeholder of a match, the text holds [PROTECTED_] and the first
    digit of its index: [b] is what stands in front of the result. *)
Lemma SubRun_occurrence r s st out st' k b v rest :
  SubRun r s st out st' -> b ++ v = placeholder k -> out = v ++ rest ->
  (b = [] -> (k < length st)%nat) ->
  exists d s', ascii_digit d = true /\ b ++ s = u8 "__PROTECTED_" ++ d :: s'.
Proof.
  intros R Hb E Hk.
  destruct (py_str_of_nat_cons k) as (d & D & ED & Hd).
  assert (Hd' : d <> 95) by (intros ->; discriminate).
  exists d.
  change (u8 "__PROTECTED_") with [95; 95; 80; 82; 79; 84; 69; 67; 84; 69; 68; 95].
  cut (exists s', b ++ s = [95; 95; 80; 82; 79; 84; 69; 67; 84; 69; 68; 95] ++ d :: s').
  { intros (s' & Es). now exists s'. }
  destruct b as [|b0 b].
  { (* the placeholder is at the start of the result *)
    cbn [app] in Hb. subst v. specialize (Hk eq_refl). revert E.
    destruct R as [st|c0 s st out st' Em R|w rest' st out st' Em M Hw R]; intros E.
    - rewrite placeholder_cons in E. discriminate.
    - rewrite placeholder_cons, ED in E. cbn [app] in E. injection E as -> E.
      destruct (@SubRun_underscore_letters r s st out st' 80 [82; 79; 84; 69; 67; 84; 69; 68]
                  d ((D ++ [95; 95]) ++ rest) R) as (s' & ->);
        try assumption; try discriminate; [repeat constructor; discriminate|].
      now exists s'.
    - exfalso.
      assert (k = length st); [|lia].
      apply (@placeholder_prefix_eq k (length st) out).
      rewrite E, strip_prefix_complete. discriminate. }
  rewrite placeholder_cons, ED in Hb. cbn [app] in Hb. injection Hb as -> Hb.
  destruct b as [|b1 b]; cbn [app] in Hb.
  { subst v. cbn [app] in E.
    destruct (@SubRun_underscore_letters r s st out st' 80 [82; 79; 84; 69; 67; 84; 69; 68]
                d ((D ++ [95; 95]) ++ rest) R) as (s' & ->);
      try assumption; try discriminate; [repeat constructor; discriminate|].
    now exists s'. }
  injection Hb as -> Hb.
  destruct b as [|? b]; [stem_case R E Hb v Hd' [80; 82; 79; 84; 69; 67; 84; 69; 68]|].
  cbn [app] in Hb. injection Hb as -> Hb.
  destruct b as [|? b]; [stem_case R E Hb v Hd' [82; 79; 84; 69; 67; 84; 69; 68]|].
  cbn [app] in Hb. injection Hb as -> Hb.
  destruct b as [|? b]; [stem_case R E Hb v Hd' [79; 84; 69; 67; 84; 69; 68]|].
  cbn [app] in Hb. injection Hb as -> Hb.
  destruct b as [|? b]; [stem_case R E Hb v Hd' [84; 69; 67; 84; 69; 68]|].
  cbn [app] in Hb. injection Hb as -> Hb.
  destruct b as [|? b]; [stem_case R E Hb v Hd' [69; 67; 84; 69; 68]|].
  cbn [app] in Hb. injection Hb as -> Hb.
  destruct b as [|? b]; [stem_case R E Hb v Hd' [67; 84; 69; 68]|].
  cbn [app] in Hb. injection Hb as -> Hb.
  destruct b as [|? b]; [stem_case R E Hb v Hd' [84; 69; 68]|].
  cbn [app] in Hb. injection Hb as -> Hb.
  destruct b as [|? b]; [stem_case R E Hb v Hd' [69; 68]|].
  cbn [app] in Hb. injection Hb as -> Hb.
  destruct b as [|? b]; [stem_case R E Hb v Hd' [68]|].
  cbn [app] in Hb. injection Hb as -> Hb.
  destruct b as [|? b]; [stem_case R E Hb v Hd' (@nil N)|].
  cbn [app] in Hb. injection Hb as -> Hb.
  destruct b as [|? b]; cbn [app] in Hb.
  - subst v. cbn [app] in E.
    destruct (SubRun_head R Hd' E) as (s' & -> & _). now exists s'.
  - injection Hb as -> Hb. exists (b ++ s). reflexivity.
Qed.

Lemma SubRun_occurrence_at r s st out st' k b l :
  SubRun r s st out st' -> (b = [] -> (k < length st)%nat) ->
  strip_prefix (placeholder k) (b ++ out) = Some l ->
  exists d s', ascii_digit d = true /\ b ++ s = u8 "__PROTECTED_" ++ d :: s'.
Proof.
  intros R Hk E. apply strip_prefix_app in E.
  destruct (app_eq_app _ _ _ _ E) as (m & [[E1 E2]|[E1 E2]]).
  - subst b. destruct (py_str_of_nat_cons k) as (d & D & ED & Hd).
    rewrite placeholder_cons, ED. cbn [app].
    exists d. eexists. split; [exact Hd|].
    change (u8 "__PROTECTED_") with [95; 95; 80; 82; 79; 84; 69; 67; 84; 69; 68; 95].
    cbn [app]. reflexivity.
  - apply (@SubRun_occurrence r s st out st' k b m l R); [now symmetry|exact E2|exact Hk].
Qed.

(** Behind the placeholder of a match, no placeholder of a lower index
    occurs, at any position. *)
Lemma no_occurrence_behind r s st out st' :
  SubRun r s st out st' ->
  forall k, contains_before (u8 "PROTECTED_") ascii_digit s = false ->
            (k < length st)%nat ->
  forall a z, out = a ++ z -> strip_prefix (placeholder k) z = None.
Proof.
  induction 1 as [st|c s st out st' Em R IH|w rest st out st' Em M Hw R IH];
    intros k Hc Hk a z E.
  - symmetry in E. apply app_eq_nil in E. destruct E as [_ ->].
    now rewrite placeholder_cons.
  - destruct a as [|c' a]; cbn [app] in E.
    + subst z.
      destruct (strip_prefix (placeholder k) (c :: out)) as [l|] eqn:El; [exfalso|reflexivity].
      destruct (@SubRun_occurrence_at r (c :: s) st (c :: out) st' k [] l
                  (@SR_copy r c s st out st' Em R) (fun _ => Hk) El) as (d & s' & Hd & Es).
      cbn [app] in Es. rewrite Es in Hc.
      now rewrite (@contains_stem_digit_here d s' Hd) in Hc.
    + injection E as _ E. apply (IH k (@stem_digit_absent_behind [c] s Hc) Hk a z E).
  - assert (Hr : contains_before (u8 "PROTECTED_") ascii_digit rest = false)
      by now apply (stem_digit_absent_behind w).
    assert (Hk' : (k < length (st ++ [w]))%nat) by (rewrite length_app; simpl; lia).
    destruct (app_eq_app _ _ _ _ E) as (m & [[E1 E2]|[E1 E2]]).
    + (* [z] starts inside the placeholder of the match *)
      subst z.
      destruct (strip_prefix (placeholder k) (m ++ out)) as [l|] eqn:El; [exfalso|reflexivity].
      destruct a as [|a0 a].
      * cbn [app] in E1. subst m.
        assert (k = length st); [|lia].
        apply (@placeholder_prefix_eq k (length st) out). rewrite El. discriminate.
      * destruct (@SubRun_occurrence_at r rest (st ++ [w]) out st' k m l R
                    (fun _ => Hk') El) as (d & s' & Hd & Es).
        symmetry in E1.
        destruct (placeholder_suffix_cases _ _ E1)
          as [->|[(x & t' & -> & Hx)|[(x & t' & -> & Hx)|[->|[->| ->]]]]].
        -- apply (f_equal (@length N)) in E1. rewrite length_app in E1. simpl in E1. lia.
        -- change (u8 "__PROTECTED_") with [95; 95; 80; 82; 79; 84; 69; 67; 84; 69; 68; 95] in Es.
           cbn [app] in Es. injection Es as Es _. now apply Hx.
        -- change (u8 "__PROTECTED_") with [95; 95; 80; 82; 79; 84; 69; 67; 84; 69; 68; 95] in Es.
           cbn [app] in Es. injection Es as Es _. now apply Hx.
        -- rewrite (@contains_stem_digit_tail [95; 95] rest d s' Es Hd) in Hr;
             [discriminate|simpl; lia].
        -- rewrite (@contains_stem_digit_tail [95] rest d s' Es Hd) in Hr;
             [discriminate|simpl; lia].
        -- rewrite (@contains_stem_digit_tail [] rest d s' Es Hd) in Hr;
             [discriminate|simpl; lia].
    + apply (IH k Hr Hk' m z E2).
Qed.

Lemma replace_loop_clear k w :
  forall fuel z,
    (forall a z', z = a ++ z' -> strip_prefix (placeholder k) z' = None) ->
    replace_loop (placeholder k) w fuel z = z.
Proof.
  induction fuel as [|fuel IH]; intros z H; [reflexivity|].
  cbn [replace_loop]. rewrite (H [] z eq_refl).
  destruct z as [|c z]; [reflexivity|]. f_equal. apply IH.
  intros a z' E. apply (H (c :: a)). now rewrite E.
Qed.

Lemma py_replace_first k w x :
  (forall a z, x = a ++ z -> strip_prefix (placeholder k) z = None) ->
  py_replace (placeholder k) w (placeholder k ++ x) = w ++ x.
Proof.
  intros H. unfold py_replace.
  destruct (placeholder k) as [|a t] eqn:E; [now destruct (placeholder_nonempty E)|].
  rewrite <- E. cbn [replace_loop]. rewrite strip_prefix_complete.
  f_equal. apply replace_loop_clear. intros a' z Ez. rewrite E. now apply (H a').
Qed.

Lemma py_replace_pass k w x :
  forall pre,
    (forall a b, pre = a ++ b -> b <> [] -> strip_prefix (placeholder k) (b ++ x) = None) ->
    py_replace (placeholder k) w (pre ++ x) = pre ++ py_replace (placeholder k) w x.
Proof.
  induction pre as [|c pre IH]; intros H; [reflexivity|].
  cbn [app]. rewrite <- IH.
  - pose proof (H [] (c :: pre) eq_refl ltac:(discriminate)) as Hn.
    unfold py_replace. rewrite placeholder_cons in *.
    cbn [app length replace_loop] in *. now rewrite Hn.
  - intros a b E Hb. apply (H (c :: a)); [now rewrite E|exact Hb].
Qed.

(** Restoring with the items a run of [re.sub] has stored gives back the
    text the run started from, when the text nowhere holds [PROTECTED_]
    in front of a digit. *)
Lemma SubRun_restore_text r s st out st' :
  SubRun r s st out st' ->
  forall items pre, st' = st ++ items ->
    contains_before (u8 "PROTECTED_") ascii_digit (pre ++ s) = false ->
    restore_from (length st) items (pre ++ out) = pre ++ s.
Proof.
  induction 1 as [st|c s st out st' Em R IH|w rest st out st' Em M Hw R IH];
    intros items pre Est Hc.
  - rewrite <- (app_nil_r st) in Est at 1. apply app_inv_head in Est. now subst items.
  - change (pre ++ c :: out) with (pre ++ [c] ++ out).
    change (pre ++ c :: s) with (pre ++ [c] ++ s) in *. rewrite !app_assoc in *.
    now apply IH.
  - destruct (SubRun_store R) as (items' & E' & _).
    assert (Ei : items = w :: items').
    { rewrite E', <- app_assoc in Est. now apply app_inv_head in Est. }
    subst items. rewrite restore_from_cons.
    rewrite py_replace_pass.
    + rewrite py_replace_first.
      * rewrite !app_assoc in *.
        replace (S (length st)) with (length (st ++ [w])) by (rewrite length_app; simpl; lia).
        now apply IH.
      * apply (no_occurrence_behind R).
        -- apply (stem_digit_absent_behind (pre ++ w)). now rewrite <- app_assoc.
        -- rewrite length_app. simpl. lia.
    + intros a b Ep Hb.
      destruct (strip_prefix (placeholder (length st)) (b ++ placeholder (length st) ++ out))
        as [l|] eqn:El; [exfalso|reflexivity].
      destruct (@SubRun_occurrence_at r (w ++ rest) st (placeholder (length st) ++ out) st'
                  (length st) b l (@SR_match r w rest st out st' Em M Hw R)
                  (fun E0 => False_ind _ (Hb E0)) El) as (d & s' & Hd & Es).
      rewrite Ep, <- app_assoc, Es in Hc. now rewrite (@contains_stem_digit a d s' Hd) in Hc.
Qed.

(** Texts with no ASCII digit, and texts with no underscore, are among
    those that do not hold [PROTECTED_] in front of a digit. *)
Lemma stem_digit_absent text :
  (forall c, In c text -> ascii_digit c = false)
    \/ (forall c, In c text -> c <> ch "_") ->
  contains_before (u8 "PROTECTED_") ascii_digit text = false.
Proof.
  intros H. induction text as [|c t IH]; [reflexivity|].
  cbn [contains_before].
  rewrite IH by (destruct H as [H|H]; [left|right]; intros x Hx; apply H; now right).
  rewrite orb_false_r.
  destruct (strip_prefix (u8 "PROTECTED_") (c :: t)) as [[|d rest]|] eqn:E; try reflexivity.
  apply strip_prefix_app in E. destruct H as [H|H].
  - apply H. rewrite E. apply in_or_app. right. now left.
  - exfalso. apply (H 95); [|reflexivity]. rewrite E. apply in_or_app. left.
    vm_compute. tauto.
Qed.

(* ===================================================================== *)
(** ** Results on [tokenize] *)
(* ===================================================================== *)

(** C1 (as amended).  For the text
    [Visit https://example.com/page.html today. Thanks.] the protector
    replaces the whole URL by one placeholder, the splitter finds the single
    boundary behind [today.] and yields two candidates with the URL intact,
    and the merger joins the one-word candidate [Thanks.] to the first:
    [tokenize] returns one sentence, the text itself. *)
Theorem url_example_one_sentence :
  _protect_special_patterns [] url_example
    = (u8 "Visit __PROTECTED_0__ today. Thanks.", [u8 "https://example.com/page.html"])
  /\ candidates_of url_example
    = [u8 "Visit https://example.com/page.html today."; u8 "Thanks."]
  /\ gujarati_sentence_tokenizer url_example = [url_example].
Proof. repeat split; vm_compute; reflexivity. Qed.

(** C2 (the code at the failing input).  In [Wait...me@x.org] the
    ellipsis becomes placeholder 0, and the email pattern, whose [\w] accepts
    the characters of a placeholder, then takes [Wait__PROTECTED_0__me@x.org]
    as placeholder 1.  Restoring in the order of the indices leaves the
    literal of placeholder 0 in the returned sentence. *)
Theorem placeholder_left_in_output :
  gujarati_sentence_tokenizer nested_example = [u8 "Wait__PROTECTED_0__me@x.org"]
  /\ contains (placeholder 0) (u8 "Wait__PROTECTED_0__me@x.org") = true
  /\ contains (u8 "__PROTECTED_") nested_example = false.
Proof. repeat split; vm_compute; reflexivity. Qed.

(** C3 (the code at the failing input).  Protecting [Wait...me@x.org]
    and restoring with the store so filled does not give the text back:
    placeholder 0, nested in item 1, is never restored. *)
Theorem restore_protect_not_identity :
  _protect_special_patterns [] nested_example
    = (u8 "__PROTECTED_1__", [u8 "..."; u8 "Wait__PROTECTED_0__me@x.org"])
  /\ _restore_protected_items (snd (_protect_special_patterns [] nested_example))
       (fst (_protect_special_patterns [] nested_example))
     = u8 "Wait__PROTECTED_0__me@x.org"
  /\ _restore_protected_items (snd (_protect_special_patterns [] nested_example))
       (fst (_protect_special_patterns [] nested_example))
     <> nested_example.
Proof. repeat split; try (vm_compute; reflexivity). vm_compute. discriminate. Qed.

(** C7 (the code at the failing input).  The email pattern asks for
    one-character labels before the last one: it matches nowhere in
    [user@example.com], which the protector leaves as it is, with no
    placeholder; it does match [user@e.x.com]. *)
Theorem email_pattern_misses_address :
  _protect_special_patterns [] email_example = (email_example, [])
  /\ match_here pat_email email_example = None
  /\ match_here pat_email (u8 "user@e.x.com") = Some [].
Proof. repeat split; vm_compute; reflexivity. Qed.

(** C9.  [tokenize] is deterministic and keeps no state between calls: the
    result and the store it leaves do not depend on the store it finds, a
    second call on the same object returns the same sentences, and so does a
    new object. *)
Theorem tokenize_stateless self self' text :
  tokenize self text = tokenize self' text
  /\ fst (tokenize (snd (tokenize self text)) text) = fst (tokenize self text)
  /\ gujarati_sentence_tokenizer text = fst (tokenize self text).
Proof. repeat split. Qed.

(** C10.  In the list returned by [tokenize] no sentence is empty, and
    every sentence but the first has at least three whitespace-delimited
    words. *)
Theorem tokenize_well_merged self text :
  Forall (fun s => s <> []) (fst (tokenize self text))
  /\ Forall (fun s => (3 <= length (py_split s))%nat) (tl (fst (tokenize self text))).
Proof.
  rewrite tokenize_unfold. cbn [fst].
  apply merge_well_merged. unfold candidates_of.
  destruct (_protect_special_patterns [] text). apply split_into_sentences_nonempty.
Qed.

Section EdgeResults.

(** No alphanumeric and no decimal digit of Unicode is whitespace. *)
Hypothesis alnum_not_space : forall c, uni_alnum c = true -> py_isspace c = false.
Hypothesis decimal_not_space : forall c, uni_decimal c = true -> py_isspace c = false.

(** C4 (as amended).  Every sentence returned by [tokenize] is non-empty
    and has no whitespace, so no newline, at its start or at its end.
    Whitespace inside a sentence is kept: the text [a], newline, [b] is
    returned as one sentence with its newline. *)
Theorem tokenize_sentences_tight self text :
  Forall tight (fst (tokenize self text))
  /\ gujarati_sentence_tokenizer newline_example = [newline_example].
Proof.
  split; [|vm_compute; reflexivity].
  rewrite tokenize_unfold. cbn [fst]. unfold _merge_short_sentences.
  pose proof (candidates_tight alnum_not_space decimal_not_space text) as H.
  rewrite merge_fold_merger by (try exact H; constructor).
  apply merger_tight; [exact H|constructor].
Qed.

(** C5.  The merger takes the candidates in order: a candidate with fewer
    than three words is joined by a single space to the last accepted
    sentence when there is one, and starts a new entry otherwise.  So
    [tokenize] of [Hi.] is the one sentence [Hi.]. *)
Theorem merger_follows_policy self text :
  fst (tokenize self text) = merger [] (candidates_of text)
  /\ fst (tokenize self (u8 "Hi.")) = [u8 "Hi."].
Proof.
  split; [|vm_compute; reflexivity].
  rewrite tokenize_unfold. cbn [fst]. unfold _merge_short_sentences.
  apply merge_fold_merger; [|constructor].
  apply (candidates_tight alnum_not_space decimal_not_space).
Qed.

Lemma tokenize_no_boundary_no_decimal text :
  (forall c, In c text -> is_boundary c = false) ->
  (forall c, In c text -> py_isdecimal c = false) ->
  gujarati_sentence_tokenizer text
  = match py_strip text with [] => [] | _ => [py_strip text] end.
Proof.
  intros Hb Hd.
  unfold gujarati_sentence_tokenizer. rewrite tokenize_unfold. cbn [fst].
  unfold candidates_of. rewrite protect_no_match.
  - rewrite split_no_boundary by exact Hb.
    change (_restore_protected_items [] (py_strip text)) with (py_strip text).
    destruct (py_strip text); reflexivity.
  - intros c Hc ->. specialize (Hb _ Hc). discriminate.
  - exact Hd.
Qed.

Lemma tokenize_no_boundary_no_stem text :
  (forall c, In c text -> is_boundary c = false) ->
  contains_before (u8 "PROTECTED_") ascii_digit text = false ->
  gujarati_sentence_tokenizer text
  = match py_strip text with [] => [] | _ => [py_strip text] end.
Proof.
  intros Hb Hu.
  assert (Fb : Forall (fun c => is_boundary c = false) text) by now apply Forall_forall.
  unfold gujarati_sentence_tokenizer. rewrite tokenize_unfold. cbn [fst].
  unfold candidates_of.
  pose proof (protect_store_tight alnum_not_space decimal_not_space (self:=[]) text
                (Forall_nil _)) as Ft.
  rewrite protect_no_boundary in * by exact Fb.
  pose proof (@re_sub_run pat_date text [] date_consumes) as R.
  destruct (re_sub pat_date _create_placeholder text []) as [out st]. cbn [fst snd] in *.
  pose proof (SubRun_Forall placeholder_no_boundary R Fb) as Fo.
  rewrite split_no_boundary by (now apply Forall_forall).
  pose proof (@SubRun_restore_text pat_date text [] out st R st [] eq_refl Hu) as Er.
  cbn [app length] in Er.
  destruct (py_strip_split out) as (ws1 & ws2 & Eo & F1 & F2).
  rewrite Eo in Er.
  rewrite restore_from_prefix in Er by now apply space_not_underscore.
  rewrite restore_from_suffix in Er by now apply space_not_underscore.
  change (restore_from 0 st (py_strip out))
    with (_restore_protected_items st (py_strip out)) in Er.
  assert (Hr : _restore_protected_items st (py_strip out) = [] /\ py_strip out = []
               \/ tight (_restore_protected_items st (py_strip out)) /\ py_strip out <> []).
  { destruct (py_strip_tight out) as [E|T].
    - left. rewrite E. split; [apply restore_nil|reflexivity].
    - right. split; [now apply restore_tight|apply T]. }
  rewrite <- Er.
  destruct Hr as [[E1 E2]|[T E2]].
  - rewrite E1, E2. rewrite (py_strip_around F1 F2) by now left. reflexivity.
  - rewrite (py_strip_around F1 F2) by now right.
    destruct (py_strip out) as [|c0 core]; [contradiction|].
    destruct T as (Hne & _).
    destruct (_restore_protected_items st (c0 :: core)) eqn:E; [contradiction|reflexivity].
Qed.

(** C8 (as amended).  [tokenize] of the empty text is the empty list, and
    for a text with no boundary punctuation it is the trimmed text as the
    only sentence, or the empty list when nothing is left after trimming,
    unless the text holds the letters [PROTECTED_] of the placeholders
    directly in front of an ASCII digit. *)
Theorem no_boundary_single_sentence text :
  (forall c, In c text -> is_boundary c = false) ->
  contains_before (u8 "PROTECTED_") ascii_digit text = false ->
  gujarati_sentence_tokenizer [] = []
  /\ gujarati_sentence_tokenizer text
     = match py_strip text with [] => [] | _ => [py_strip text] end.
Proof.
  intros Hb Hu. split; [reflexivity|].
  now apply tokenize_no_boundary_no_stem.
Qed.

End EdgeResults.

(* ===================================================================== *)
(** ** Further properties of the merger *)
(* ===================================================================== *)

Lemma split_words_app b sp :
  py_isspace sp = true ->
  forall a cur,
    split_words (a ++ sp :: b) cur = split_words a cur ++ split_words b [].
Proof.
  intros Hsp. induction a as [|c a IH]; intros cur; simpl.
  - rewrite Hsp. destruct cur; reflexivity.
  - destruct (py_isspace c); [destruct cur|]; simpl; now rewrite IH.
Qed.

Lemma py_split_merged a s :
  py_split (py_rstrip a ++ u8 " " ++ s) = py_split a ++ py_split s.
Proof.
  unfold py_split. change (u8 " " ++ s) with (ch " " :: s).
  rewrite split_words_app by reflexivity.
  change (split_words (py_rstrip a) []) with (py_split (py_rstrip a)).
  now rewrite words_rstrip.
Qed.

Lemma merge_step_words merged sentence :
  all_words (merge_step merged sentence) = all_words merged ++ py_split sentence.
Proof.
  unfold all_words, merge_step. destruct merged as [|m merged].
  { simpl. now rewrite app_nil_r. }
  destruct (length (py_split sentence) <? 3)%nat.
  - assert (E : flat_map py_split (m :: merged)
                = flat_map py_split (removelast (m :: merged))
                    ++ py_split (last (m :: merged) [])).
    { pose proof (app_removelast_last (l:=m :: merged) [] ltac:(discriminate)) as E0.
      rewrite E0 at 1. rewrite flat_map_app. cbn [flat_map]. now rewrite app_nil_r. }
    rewrite E, flat_map_app. cbn [flat_map].
    now rewrite app_nil_r, py_split_merged, app_assoc.
  - rewrite flat_map_app. cbn [flat_map]. now rewrite app_nil_r.
Qed.

(** X1.  The merger keeps the words of the sentences, in their order. *)
Theorem merge_keeps_words sentences :
  all_words (_merge_short_sentences sentences) = all_words sentences.
Proof.
  unfold _merge_short_sentences.
  assert (G : forall l acc,
             all_words (fold_left merge_step l acc) = all_words acc ++ all_words l).
  { induction l as [|s l IH]; intros acc; simpl.
    - now rewrite app_nil_r.
    - rewrite IH, merge_step_words, <- app_assoc. reflexivity. }
  apply G.
Qed.

Lemma removelast_shorter (A : Type) (l : list A) :
  length (removelast l) = Nat.pred (length l).
Proof.
  destruct (last_cases l) as [->|(l' & x & ->)]; [reflexivity|].
  rewrite removelast_last, length_app. simpl. lia.
Qed.

Lemma merge_step_length merged sentence :
  (1 <= length (merge_step merged sentence) <= S (length merged))%nat.
Proof.
  unfold merge_step. destruct merged as [|m merged]; [simpl; lia|].
  destruct (length (py_split sentence) <? 3)%nat.
  - rewrite length_app, removelast_shorter. simpl. lia.
  - rewrite length_app. simpl. lia.
Qed.

(** X2.  The merger returns at most as many sentences as it is given, and
    an empty list only for an empty list. *)
Theorem merge_length sentences :
  (length (_merge_short_sentences sentences) <= length sentences)%nat
  /\ (_merge_short_sentences sentences = [] <-> sentences = []).
Proof.
  unfold _merge_short_sentences.
  assert (G : forall l acc,
             (length (fold_left merge_step l acc) <= length acc + length l)%nat
             /\ (length acc + length l <> 0 -> fold_left merge_step l acc <> [])%nat).
  { induction l as [|s l IH]; intros acc; simpl.
    - split; [lia|]. intros H E. subst acc. simpl in H. lia.
    - pose proof (merge_step_length acc s) as L.
      destruct (IH (merge_step acc s)) as [H1 H2]. split; [lia|].
      intros _. apply H2. lia. }
  destruct (G sentences []) as [H1 H2]. simpl in *. split; [exact H1|].
  split.
  - intros E. destruct sentences; [reflexivity|]. exfalso. apply H2; [discriminate|exact E].
  - intros ->. reflexivity.
Qed.

Lemma merge_tail_words sentences :
  Forall (fun s => (3 <= length (py_split s))%nat) (tl (_merge_short_sentences sentences)).
Proof.
  unfold _merge_short_sentences.
  assert (S1 : forall acc s,
             Forall (fun s => (3 <= length (py_split s))%nat) (tl acc) ->
             Forall (fun s => (3 <= length (py_split s))%nat) (tl (merge_step acc s))).
  { intros acc s Hw. unfold merge_step. destruct acc as [|m merged]; [constructor|].
    destruct (length (py_split s) <? 3)%nat eqn:E.
    - destruct merged as [|m' merged]; [constructor|].
      change (Forall (fun s => (3 <= length (py_split s))%nat)
                     (removelast (m' :: merged)
                        ++ [py_rstrip (last (m' :: merged) []) ++ u8 " " ++ s])).
      simpl in Hw. apply Forall_app. split; [now apply Forall_removelast|].
      constructor; [|constructor]. rewrite words_merged.
      apply (Forall_last (P:=fun s => (3 <= length (py_split s))%nat)) with (d:=[]) in Hw;
        [|discriminate]. lia.
    - simpl. apply Forall_app. split; [exact Hw|].
      constructor; [|constructor]. now apply Nat.ltb_ge in E. }
  assert (G : forall l acc,
             Forall (fun s => (3 <= length (py_split s))%nat) (tl acc) ->
             Forall (fun s => (3 <= length (py_split s))%nat) (tl (fold_left merge_step l acc))).
  { induction l as [|s l IH]; intros acc Ha; simpl; [exact Ha|]. apply IH. now apply S1. }
  apply G. constructor.
Qed.

Lemma merge_fixes_merged l :
  Forall (fun s => (3 <= length (py_split s))%nat) (tl l) ->
  _merge_short_sentences l = l.
Proof.
  unfold _merge_short_sentences. intros H.
  assert (G : forall l acc,
             Forall (fun s => (3 <= length (py_split s))%nat) l ->
             acc <> [] -> fold_left merge_step l acc = acc ++ l).
  { induction l0 as [|s l0 IH]; intros acc F Ha; simpl; [now rewrite app_nil_r|].
    inversion F as [|? ? Hs F']; subst.
    assert (E : merge_step acc s = acc ++ [s]).
    { unfold merge_step. destruct acc; [contradiction|].
      apply Nat.ltb_ge in Hs. now rewrite Hs. }
    rewrite E, IH; [now rewrite <- app_assoc|exact F'|].
    destruct acc; [contradiction|discriminate]. }
  destruct l as [|s l]; [reflexivity|]. simpl.
  change (merge_step [] s) with [s]. simpl in H. rewrite G; [reflexivity|exact H|discriminate].
Qed.

(** X3.  Merging twice is merging once: the merger leaves its own result,
    and any list whose sentences behind the first have at least three words,
    as it is. *)
Theorem merge_idempotent sentences :
  _merge_short_sentences (_merge_short_sentences sentences)
  = _merge_short_sentences sentences.
Proof. apply merge_fixes_merged, merge_tail_words. Qed.

(* ===================================================================== *)
(** ** Further properties of the splitter *)
(* ===================================================================== *)

Lemma all_chars_spec P r w : all_chars P r -> Matches r w -> Forall P w.
Proof.
  intros H M. revert H.
  induction M as [w|neg items c Hc|r1 r2 w1 w2 M1 IH1 M2 IH2|r1 r2 w M IH|r1 r2 w M IH
                 |r hi|r lo hi w1 w2 Hhi M1 IH1 M2 IH2]; simpl; intros H.
  - exact H.
  - constructor; [now apply H|constructor].
  - apply Forall_app. split; [apply IH1|apply IH2]; tauto.
  - apply IH. tauto.
  - apply IH. tauto.
  - constructor.
  - apply Forall_app. split; [now apply IH1|now apply IH2].
Qed.

Lemma match_group_sound g t s grp rest :
  match_group g t s = Some (grp, rest) ->
  exists ws, s = grp ++ ws ++ rest /\ Matches g grp /\ Matches t ws.
Proof.
  unfold match_group. intros H.
  destruct (flat_map _ (ends g s)) as [|x l] eqn:E; [discriminate|].
  simpl in H. injection H as ->.
  assert (Hin : In (grp, rest)
                  (flat_map (fun s1 => map (fun rest => (firstn (length s - length s1) s, rest))
                                           (ends t s1)) (ends g s)))
    by (rewrite E; now left).
  apply in_flat_map in Hin. destruct Hin as (s1 & H1 & H2).
  apply in_map_iff in H2. destruct H2 as (rest' & E2 & H2).
  injection E2 as <- ->.
  apply ends_sound in H1. destruct H1 as (w1 & -> & M1).
  apply ends_sound in H2. destruct H2 as (w2 & -> & M2).
  exists w2. rewrite firstn_consumed. now repeat split.
Qed.

Lemma boundary_group_match grp :
  Matches boundary_group grp -> exists c, grp = [c] /\ is_boundary c = true.
Proof.
  unfold boundary_group. intros M. inversion M as [|neg items c Hc| | | | |]; subst.
  exists c. split; [reflexivity|].
  cbn [in_set existsb in_citem xorb] in Hc. unfold is_boundary. norm_ch. bool_arith.
Qed.

Lemma boundary_tail_match ws :
  Matches boundary_tail ws -> Forall (fun c => py_isspace c = true) ws.
Proof.
  apply all_chars_spec. unfold boundary_tail, plus, re_space. simpl.
  intros c H. cbn [in_set existsb in_citem xorb] in H. now rewrite orb_false_r in H.
Qed.

Lemma split_loop_alternating fuel :
  forall s cur, alternating (split_loop boundary_group boundary_tail fuel s cur).
Proof.
  induction fuel as [|fuel IH]; intros s cur; cbn [split_loop]; [exact I|].
  destruct (match_group boundary_group boundary_tail s) as [[grp rest]|] eqn:E.
  - destruct (length rest <? length s)%nat.
    + destruct (match_group_sound _ _ _ E) as (ws & _ & Mg & _).
      split; [now apply boundary_group_match|apply IH].
    + destruct s; [exact I|apply IH].
  - destruct s; [exact I|apply IH].
Qed.

Lemma list_pair_ind (A : Type) (P : list A -> Prop) :
  P [] -> (forall x, P [x]) -> (forall x y l, P l -> P (x :: y :: l)) ->
  forall l, P l.
Proof.
  intros H0 H1 H2.
  assert (G : forall l, P l /\ forall x, P (x :: l)).
  { induction l as [|y l [IH1 IH2]]; split; auto. }
  intros l. apply G.
Qed.

Lemma mod2_SS n : (S (S n) mod 2 = n mod 2)%nat.
Proof.
  replace (S (S n)) with (n + 1 * 2)%nat by lia. apply Nat.Div0.mod_add.
Qed.

Lemma alternating_odd parts : alternating parts -> (length parts mod 2 = 1)%nat.
Proof.
  induction parts as [|x|x y l IH] using list_pair_ind; intros H.
  - contradiction.
  - reflexivity.
  - cbn [length]. rewrite mod2_SS. apply IH. destruct l; apply H.
Qed.

(** X4.  [re.split] with the boundary pattern returns pieces of text that
    alternate with single boundary characters, so an odd number of parts:
    the test [len(parts) % 2 == 1] of [_split_into_sentences] always holds
    and the last piece is never left out. *)
Theorem split_parts_alternate text :
  alternating (re_split boundary_group boundary_tail text)
  /\ (length (re_split boundary_group boundary_tail text) mod 2 = 1)%nat.
Proof.
  assert (H : alternating (re_split boundary_group boundary_tail text))
    by apply split_loop_alternating.
  split; [exact H|now apply alternating_odd].
Qed.

Lemma non_space_app a b : non_space (a ++ b) = non_space a ++ non_space b.
Proof. apply filter_app. Qed.

Lemma non_space_spaces ws :
  Forall (fun c => py_isspace c = true) ws -> non_space ws = [].
Proof.
  induction 1 as [|c ws Hc _ IH]; [reflexivity|]. simpl. now rewrite Hc.
Qed.

Lemma non_space_strip s : non_space (py_strip s) = non_space s.
Proof.
  destruct (py_strip_split s) as (ws1 & ws2 & E & F1 & F2).
  rewrite E at 2. rewrite !non_space_app, (non_space_spaces F1), (non_space_spaces F2).
  now rewrite app_nil_r.
Qed.

Lemma split_loop_non_space fuel :
  forall s cur,
    non_space (concat (split_loop boundary_group boundary_tail fuel s cur))
    = non_space (cur ++ s).
Proof.
  induction fuel as [|fuel IH]; intros s cur; cbn [split_loop].
  { simpl. now rewrite app_nil_r. }
  assert (Hcopy : non_space
                    (concat match s with
                            | [] => [cur]
                            | c :: s' =>
                              split_loop boundary_group boundary_tail fuel s' (cur ++ [c])
                            end) = non_space (cur ++ s)).
  { destruct s as [|c s]; [simpl; now rewrite app_nil_r|].
    rewrite IH, <- app_assoc. reflexivity. }
  destruct (match_group boundary_group boundary_tail s) as [[grp rest]|] eqn:E;
    [|exact Hcopy].
  destruct (length rest <? length s)%nat; [|exact Hcopy].
  destruct (match_group_sound _ _ _ E) as (ws & -> & _ & Mt).
  cbn [concat]. rewrite !non_space_app, IH. cbn [app].
  now rewrite (non_space_spaces (boundary_tail_match Mt)).
Qed.

Lemma split_pairs_non_space parts :
  (length parts mod 2 = 1)%nat ->
  non_space (concat (split_pairs [] parts)) ++ non_space (last parts [])
  = non_space (concat parts).
Proof.
  induction parts as [|x|p0 p1 tl IH] using list_pair_ind; intros Hodd.
  - discriminate.
  - simpl. now rewrite app_nil_r.
  - cbn [length] in Hodd. rewrite mod2_SS in Hodd. specialize (IH Hodd).
    cbn [split_pairs].
    change (_restore_protected_items [] (py_strip (p0 ++ p1))) with (py_strip (p0 ++ p1)).
    assert (E : non_space
                  (concat match py_strip (p0 ++ p1) with
                          | [] => split_pairs [] tl
                          | _ :: _ => py_strip (p0 ++ p1) :: split_pairs [] tl
                          end)
                = non_space (p0 ++ p1) ++ non_space (concat (split_pairs [] tl))).
    { rewrite <- (non_space_strip (p0 ++ p1)).
      destruct (py_strip (p0 ++ p1)); [reflexivity|].
      cbn [concat]. now rewrite non_space_app. }
    rewrite E. cbn [concat]. rewrite app_assoc, !non_space_app, <- IH.
    destruct tl as [|p2 tl]; [discriminate|].
    change (last (p0 :: p1 :: p2 :: tl) []) with (last (p2 :: tl) []).
    now rewrite !app_assoc.
Qed.

(** X5.  With an empty store the splitter loses nothing but whitespace:
    the code points of its candidates that are not whitespace are those of
    the text, in the same order. *)
Theorem split_keeps_non_space text :
  non_space (concat (_split_into_sentences [] text)) = non_space text.
Proof.
  unfold _split_into_sentences.
  set (parts := re_split boundary_group boundary_tail text).
  assert (Hodd : (length parts mod 2 = 1)%nat)
    by (unfold parts, re_split; apply alternating_odd, split_loop_alternating).
  pose proof (split_pairs_non_space parts Hodd) as H.
  assert (Hc : non_space (concat parts) = non_space text).
  { unfold parts, re_split. now rewrite split_loop_non_space. }
  rewrite Hc in H. rewrite Hodd. cbn [Nat.eqb andb].
  change (_restore_protected_items [] (py_strip (last parts []))) with
    (py_strip (last parts [])).
  rewrite <- (non_space_strip (last parts [])) in H.
  destruct (py_strip (last parts [])) as [|c0 core].
  - simpl in *. now rewrite app_nil_r in H.
  - cbn [length Nat.eqb negb]. rewrite concat_app, non_space_app. simpl concat.
    now rewrite app_nil_r.
Qed.

(* ===================================================================== *)
(** ** Protecting and restoring: the round trip *)
(* ===================================================================== *)

Lemma Exp_store_mono lo st more p t : Exp lo st p t -> Exp lo (st ++ more) p t.
Proof.
  induction 1 as [|c p t Hc _ IH|j w p t Hj Hn _ IH].
  - constructor.
  - now constructor.
  - constructor; try assumption.
    rewrite nth_error_app1; [exact Hn|]. apply nth_error_Some. congruence.
Qed.

Lemma Exp_chars lo st w : Forall (fun c => c <> ch "_") w -> Exp lo st w w.
Proof. induction 1; now constructor. Qed.

Lemma Exp_app lo st p1 t1 p2 t2 :
  Exp lo st p1 t1 -> Exp lo st p2 t2 -> Exp lo st (p1 ++ p2) (t1 ++ t2).
Proof.
  induction 1 as [|c p t Hc _ IH|j w p t Hj Hn _ IH]; intros H2.
  - exact H2.
  - cbn [app]. constructor; [exact Hc|now apply IH].
  - rewrite <- !app_assoc. constructor; try assumption. now apply IH.
Qed.

Lemma Exp_prot lo st p t : Exp lo st p t -> Prot lo p.
Proof. induction 1; now constructor. Qed.

Lemma Exp_peel lo st w :
  Forall (fun c => c <> ch "_") w ->
  forall rest t, Exp lo st (w ++ rest) t -> exists t', t = w ++ t' /\ Exp lo st rest t'.
Proof.
  induction 1 as [|c w Hc _ IH]; intros rest t H.
  - now exists t.
  - cbn [app] in H. inversion H; subst.
    + match goal with Hp : Exp _ _ (w ++ rest) _ |- _ =>
        destruct (IH _ _ Hp) as (t' & -> & Ht) end.
      now exists t'.
    + exfalso. now apply Hc.
Qed.

Lemma Exp_no_placeholder st p t : Exp (length st) st p t -> p = t.
Proof.
  induction 1 as [|c p t Hc _ IH|j w p t Hj Hn _ IH].
  - reflexivity.
  - now f_equal.
  - exfalso. assert (j < length st)%nat by (apply nth_error_Some; congruence). lia.
Qed.

(** *** No pattern that keeps clear of the underscore matches inside a
    placeholder *)

Lemma placeholder_not_foreign j : Forall (fun c => ~ foreign c) (placeholder j).
Proof.
  assert (D : forall c, ascii_digit c = true -> ~ foreign c).
  { intros c H. unfold ascii_digit in H. unfold foreign. norm_ch. bool_arith. }
  rewrite placeholder_cons.
  repeat (constructor; [unfold foreign; norm_ch; lia|]).
  apply Forall_app. split.
  - eapply Forall_impl; [|apply py_str_of_nat_digits]. exact D.
  - repeat (constructor; [unfold foreign; norm_ch; lia|]). constructor.
Qed.

Lemma placeholder_last j : exists p, placeholder j = p ++ [95].
Proof. apply placeholder_snoc. Qed.

Lemma prefix_within w :
  Forall (fun c => c <> ch "_") w ->
  forall tt rest x, In 95 tt -> w ++ rest = tt ++ x -> exists m, tt = w ++ m.
Proof.
  induction 1 as [|c w Hc _ IH]; intros tt rest x Hin E.
  - now exists tt.
  - destruct tt as [|d tt]; [contradiction|].
    cbn [app] in E. injection E as -> E.
    destruct Hin as [Hin|Hin]; [exfalso; apply Hc; now rewrite Hin|].
    destruct (IH _ _ _ Hin E) as (m & ->). now exists m.
Qed.

Lemma suffix_has_underscore j a tt :
  a ++ tt = placeholder j -> tt <> [] -> In 95 tt.
Proof.
  intros E Hn. destruct (placeholder_snoc j) as (p & Ep). rewrite Ep in E.
  destruct (last_cases tt) as [->|(tt' & x & ->)]; [contradiction|].
  rewrite app_assoc in E. apply app_inj_tail in E. destruct E as [_ ->].
  apply in_or_app. right. now left.
Qed.

Lemma no_match_inside r j a tt x :
  all_chars (fun c => c <> ch "_") r -> needs foreign r ->
  a ++ tt = placeholder j -> tt <> [] ->
  match_here r (tt ++ x) = None.
Proof.
  intros Hclean Hneeds E Hn.
  destruct (match_here r (tt ++ x)) as [rest|] eqn:Em; [exfalso|reflexivity].
  destruct (match_here_sound _ _ Em) as (w & Ew & M).
  pose proof (all_chars_spec _ Hclean M) as Fw.
  destruct (needs_spec _ Hneeds M) as (c & Hc & Fc).
  destruct (@prefix_within w Fw tt rest x (@suffix_has_underscore j a tt E Hn) (eq_sym Ew))
    as (m & Em').
  pose proof (placeholder_not_foreign j) as Fp. rewrite <- E, Em' in Fp.
  rewrite !Forall_app in Fp. destruct Fp as [_ [Fp _]].
  rewrite Forall_forall in Fp. now apply (Fp c).
Qed.

Lemma SubRun_jump r j x st st' :
  all_chars (fun c => c <> ch "_") r -> needs foreign r ->
  forall tt a out, a ++ tt = placeholder j ->
    SubRun r (tt ++ x) st out st' ->
    exists out', out = tt ++ out' /\ SubRun r x st out' st'.
Proof.
  intros Hclean Hneeds. induction tt as [|c tt IH]; intros a out E R.
  - now exists out.
  - assert (Hnone : match_here r ((c :: tt) ++ x) = None)
      by (apply (@no_match_inside r j a); try assumption; discriminate).
    cbn [app] in R, Hnone.
    inversion R; subst.
    + match goal with R' : SubRun r (tt ++ x) _ _ _ |- _ =>
        destruct (IH (a ++ [c]) _ ltac:(now rewrite <- app_assoc) R')
          as (out' & -> & R'') end.
      now exists out'.
    + match goal with
      | E1 : _ ++ _ = c :: tt ++ x, Em : match_here r (_ ++ _) = Some _ |- _ =>
        rewrite E1 in Em; congruence
      end.
Qed.

(** One statement of the protector keeps what the protected text stands
    for. *)
Lemma SubRun_Exp r :
  all_chars (fun c => c <> ch "_") r -> needs foreign r ->
  forall n p st out st' t,
    (length p <= n)%nat ->
    SubRun r p st out st' -> Exp 0 st p t -> Exp 0 st' out t.
Proof.
  intros Hclean Hneeds. induction n as [|n IH]; intros p st out st' t Hl R HE.
  - destruct p; [|simpl in Hl; lia].
    inversion R; subst.
    + exact HE.
    + match goal with E : _ ++ _ = [] |- _ => apply app_eq_nil in E; destruct E end.
      subst. simpl in *. congruence.
  - destruct HE as [|c p t Hc HE|j w0 p t Hj Hn HE].
    + inversion R; subst.
      * constructor.
      * match goal with E : _ ++ _ = [] |- _ => apply app_eq_nil in E; destruct E end.
        subst. simpl in *. congruence.
    + inversion R; subst.
      * constructor; [exact Hc|]. eapply IH; [|eassumption|exact HE]. simpl in Hl. lia.
      * match goal with
        | E : ?w ++ ?rest = c :: p, M : Matches r ?w, Hw : ?w <> [],
          R' : SubRun r ?rest _ _ _ |- _ =>
          pose proof (all_chars_spec _ Hclean M) as Fw;
          assert (HE' : Exp 0 st (w ++ rest) (c :: t))
            by (rewrite E; now constructor);
          destruct (Exp_peel Fw _ HE') as (t' & Et & Hr);
          destruct (SubRun_store R') as (items & Est & _);
          assert (Hlen : (length rest <= n)%nat)
            by (apply (f_equal (@length N)) in E; rewrite length_app in E;
                simpl in E, Hl; destruct w; [contradiction|simpl in E; lia]);
          pose proof (IH _ _ _ _ _ Hlen R' (Exp_store_mono [w] Hr)) as Ho;
          rewrite Et; apply E_ph; [lia| |exact Ho];
          rewrite Est, <- app_assoc, nth_error_app2, Nat.sub_diag by lia; reflexivity
        end.
    + destruct (@SubRun_jump r j p st st' Hclean Hneeds (placeholder j) [] out eq_refl R)
        as (out' & -> & R').
      destruct (SubRun_store R') as (items & Est & _).
      apply E_ph; [exact Hj| |].
      * rewrite Est. rewrite nth_error_app1; [exact Hn|]. apply nth_error_Some. congruence.
      * eapply IH; [|exact R'|exact HE].
        rewrite length_app in Hl. rewrite placeholder_cons in Hl. simpl in Hl. lia.
Qed.

(** *** Restoring one index *)

Lemma no_occurrence_inside lo k j a tt y :
  k <> j -> a ++ tt = placeholder j -> tt <> [] -> Prot lo y ->
  strip_prefix (placeholder k) (tt ++ y) = None.
Proof.
  intros Hk E Hn Hy.
  destruct (py_str_of_nat_cons k) as (d & D & ED & Hd).
  assert (Hd' : d <> 95) by (intros ->; discriminate).
  destruct (placeholder_suffix_cases _ _ E)
    as [->|[(c & t' & -> & Hc)|[(c & t' & -> & Hc)|[->|[->| ->]]]]].
  - destruct (strip_prefix (placeholder k) (placeholder j ++ y)) eqn:E1; [|reflexivity].
    exfalso. apply Hk. apply (@placeholder_prefix_eq k j y). congruence.
  - rewrite placeholder_cons. apply strip_prefix_head_ne. congruence.
  - rewrite placeholder_cons. cbn [app strip_prefix]. rewrite N.eqb_refl.
    apply N.eqb_neq in Hc. now rewrite N.eqb_sym, Hc.
  - rewrite placeholder_cons, ED. cbn [app strip_prefix]. rewrite !N.eqb_refl.
    apply (@letters_not_prefix lo [80; 82; 79; 84; 69; 67; 84; 69; 68] d (D ++ [95; 95]));
      try assumption.
    repeat constructor; discriminate.
  - rewrite placeholder_cons. cbn [app strip_prefix]. rewrite N.eqb_refl.
    destruct Hy as [|c x Hc _|j' x _ _].
    + reflexivity.
    + change (ch "_") with 95 in Hc. apply N.eqb_neq in Hc. now rewrite N.eqb_sym, Hc.
    + now rewrite placeholder_cons.
  - contradiction.
Qed.

Lemma replace_loop_over lo k j w y :
  k <> j -> Prot lo y ->
  forall tt a fuel, a ++ tt = placeholder j -> (length (tt ++ y) < fuel)%nat ->
    replace_loop (placeholder k) w fuel (tt ++ y)
    = tt ++ replace_loop (placeholder k) w (fuel - length tt) y.
Proof.
  intros Hk Hy. induction tt as [|c tt IH]; intros a fuel E Hf.
  - cbn [app length]. now rewrite Nat.sub_0_r.
  - destruct fuel as [|fuel]; [lia|]. cbn [replace_loop].
    rewrite (@no_occurrence_inside lo k j a (c :: tt) y) by (try assumption; discriminate).
    cbn [app length Nat.sub]. f_equal. apply (IH (a ++ [c])).
    + now rewrite <- app_assoc.
    + simpl in Hf. lia.
Qed.

Lemma py_replace_over lo k j w y :
  k <> j -> Prot lo y ->
  py_replace (placeholder k) w (placeholder j ++ y)
  = placeholder j ++ py_replace (placeholder k) w y.
Proof.
  intros Hk Hy. unfold py_replace.
  destruct (placeholder k) as [|a0 t0] eqn:E; [now destruct (placeholder_nonempty E)|].
  rewrite <- E.
  rewrite (@replace_loop_over lo k j w y Hk Hy (placeholder j) []
             (S (length (placeholder j ++ y))) eq_refl (Nat.lt_succ_diag_r _)).
  f_equal. apply replace_loop_fuel_enough.
  - apply placeholder_nonempty.
  - rewrite length_app. lia.
  - lia.
Qed.

Lemma py_replace_at k w y :
  py_replace (placeholder k) w (placeholder k ++ y)
  = w ++ py_replace (placeholder k) w y.
Proof.
  unfold py_replace.
  destruct (placeholder k) as [|a0 t0] eqn:E; [now destruct (placeholder_nonempty E)|].
  rewrite <- E.
  transitivity (w ++ replace_loop (placeholder k) w (length (placeholder k ++ y)) y).
  { cbn [replace_loop]. now rewrite strip_prefix_complete. }
  f_equal. apply replace_loop_fuel_enough.
  - apply placeholder_nonempty.
  - rewrite length_app, E. simpl. lia.
  - lia.
Qed.

Lemma replace_Exp k st w p t :
  nth_error st k = Some w -> Forall (fun c => c <> ch "_") w ->
  Exp k st p t -> Exp (S k) st (py_replace (placeholder k) w p) t.
Proof.
  intros Hk Fw. induction 1 as [|c p t Hc HE IH|j w0 p t Hj Hn HE IH].
  - rewrite py_replace_nil by apply placeholder_nonempty. constructor.
  - change (c :: p) with ([c] ++ p).
    rewrite py_replace_skip by (constructor; [exact Hc|constructor]).
    now constructor.
  - destruct (Nat.eq_dec k j) as [<-|Hne].
    + rewrite py_replace_at. assert (w0 = w) by congruence. subst w0.
      apply Exp_app; [now apply Exp_chars|exact IH].
    + rewrite (@py_replace_over k k j w p Hne (Exp_prot HE)).
      constructor; [lia|exact Hn|exact IH].
Qed.

(** Restoring reads every placeholder as its item, when no item holds an
    underscore. *)
Lemma restore_Exp items :
  Forall (Forall (fun c => c <> ch "_")) items ->
  forall done p t,
    Exp (length done) (done ++ items) p t ->
    restore_from (length done) items p = t.
Proof.
  induction 1 as [|w items Fw _ IH]; intros done p t HE.
  - rewrite app_nil_r in HE. now apply Exp_no_placeholder in HE.
  - rewrite restore_from_cons.
    replace (S (length done)) with (length (done ++ [w])) by (rewrite length_app; simpl; lia).
    apply IH. rewrite <- app_assoc. cbn [app].
    replace (length (done ++ [w])) with (S (length done)) by (rewrite length_app; simpl; lia).
    apply replace_Exp; [|exact Fw|exact HE].
    now rewrite nth_error_app2, Nat.sub_diag by lia.
Qed.

(** *** The seven patterns *)

Lemma needs_weaken (P Q : N -> Prop) r :
  (forall c, P c -> Q c) -> needs P r -> needs Q r.
Proof.
  intros PQ. induction r as [w|neg items|r1 IH1 r2 IH2|r1 IH1 r2 IH2|r IH lo hi]; simpl.
  - intros (c & Hc & Pc). exists c. split; [exact Hc|now apply PQ].
  - intros H c Hc. now apply PQ, H.
  - tauto.
  - tauto.
  - tauto.
Qed.

Lemma dot_foreign c : c = ch "." -> foreign c.
Proof. intros ->. now left. Qed.

Ltac clean_fact :=
  repeat split;
  try (let c := fresh "c" in let H := fresh "H" in
       intros c H; intros ->; vm_compute in H; discriminate);
  try (vm_compute; repeat constructor; discriminate).

Lemma clean_patterns :
  Forall (all_chars (fun c => c <> ch "_"))
    [pat_ellipsis; pat_date; abbr_pattern; pat_num_dot; pat_guj_matra_dot].
Proof.
  open_pattern. cbn [all_chars map alts cats].
  repeat (constructor; [clean_fact|]). constructor.
Qed.

Lemma foreign_patterns :
  Forall (needs foreign)
    [pat_ellipsis; pat_date; abbr_pattern; pat_num_dot; pat_guj_matra_dot].
Proof.
  constructor; [apply (@needs_weaken _ foreign _ dot_foreign needs_dot_ellipsis)|].
  constructor.
  { open_pattern. split.
    - right. left. intros c H. cbn [in_set existsb in_citem xorb] in H.
      unfold foreign. norm_ch. bool_arith.
    - do 2 right. left. split; [discriminate|].
      repeat split;
        (match goal with
         | |- context [u8 ?s] =>
           let v := eval vm_compute in (u8 s) in change (u8 s) with v
         end;
         eexists; split; [left; reflexivity|unfold foreign; norm_ch; lia]). }
  constructor; [apply (@needs_weaken _ foreign _ dot_foreign needs_dot_abbr)|].
  constructor; [apply (@needs_weaken _ foreign _ dot_foreign needs_dot_num_dot)|].
  constructor; [apply (@needs_weaken _ foreign _ dot_foreign needs_dot_matra)|].
  constructor.
Qed.

Lemma needs_colon_url : needs (fun c => c = ch ":") pat_url.
Proof.
  open_pattern. do 2 right. left. exists (ch ":"). split; [in_literal|reflexivity].
Qed.

Lemma needs_at_email : needs (fun c => c = ch "@") pat_email.
Proof.
  open_pattern. right. left. exists (ch "@"). split; [in_literal|reflexivity].
Qed.

Lemma placeholder_no_at_colon j :
  Forall (fun c => c <> ch "@" /\ c <> ch ":") (placeholder j).
Proof.
  rewrite placeholder_cons.
  repeat (constructor; [split; discriminate|]).
  apply Forall_app. split.
  - eapply Forall_impl; [|apply py_str_of_nat_digits].
    intros c H. unfold ascii_digit in H. norm_ch. bool_arith.
  - repeat (constructor; [split; discriminate|]). constructor.
Qed.

Lemma stage_clean text r ts :
  consumes r -> all_chars (fun c => c <> ch "_") r -> needs foreign r ->
  stands_for text ts -> stands_for text (stage r ts).
Proof.
  intros Hc Hclean Hneeds (HE & HQ & HI). unfold stage.
  pose proof (@re_sub_run r (fst ts) (snd ts) Hc) as R.
  destruct (re_sub r _create_placeholder (fst ts) (snd ts)) as [out st'].
  cbn [fst snd] in *. repeat split.
  - exact (SubRun_Exp Hclean Hneeds (le_n _) R HE).
  - exact (SubRun_Forall placeholder_no_at_colon R HQ).
  - destruct (SubRun_store R) as (items & -> & F).
    apply Forall_app. split; [exact HI|].
    eapply Forall_impl; [|exact F]. intros w M. exact (all_chars_spec _ Hclean M).
Qed.

Lemma stage_absent text r (P : N -> Prop) ts :
  consumes r -> needs P r ->
  (forall c, c <> ch "@" /\ c <> ch ":" -> ~ P c) ->
  stands_for text ts -> stands_for text (stage r ts).
Proof.
  intros Hc Hn HP H. unfold stage.
  rewrite (@re_sub_no_match r P (fst ts) (snd ts) Hc Hn).
  - now destruct ts.
  - destruct H as (_ & HQ & _). rewrite Forall_forall in HQ.
    intros c Hin. apply HP. now apply HQ.
Qed.

Lemma protect_stands_for text :
  (forall c, In c text -> c <> ch "_" /\ c <> ch "@" /\ c <> ch ":") ->
  stands_for text (_protect_special_patterns [] text).
Proof.
  intros H.
  assert (H0 : stands_for text (text, [])).
  { repeat split; cbn [fst snd].
    - apply Exp_chars. apply Forall_forall. intros c Hc. now apply H.
    - apply Forall_forall. intros c Hc. split; now apply H.
    - constructor. }
  pose proof cascade_consumes as C. unfold protection_cascade in C.
  repeat match type of C with
  | Forall _ (_ :: _) =>
    let C1 := fresh "C" in inversion C as [|? ? C1 C']; subst; clear C; rename C' into C
  end.
  pose proof clean_patterns as K.
  repeat match type of K with
  | Forall _ (_ :: _) =>
    let K1 := fresh "K" in inversion K as [|? ? K1 K']; subst; clear K; rename K' into K
  end.
  pose proof foreign_patterns as F.
  repeat match type of F with
  | Forall _ (_ :: _) =>
    let F1 := fresh "F" in inversion F as [|? ? F1 F']; subst; clear F; rename F' into F
  end.
  rewrite protect_stages. unfold protection_cascade. cbn [fold_left].
  do 4 (apply stage_clean; [assumption|assumption|assumption|]).
  apply (@stage_absent text pat_email (fun c => c = ch "@"));
    [assumption|apply needs_at_email|intros c [Ha _]; exact Ha|].
  apply (@stage_absent text pat_url (fun c => c = ch ":"));
    [assumption|apply needs_colon_url|intros c [_ Hb]; exact Hb|].
  apply stage_clean; [assumption|assumption|assumption|].
  exact H0.
Qed.

(** X6.  For a text with no underscore, no [@] and no colon, restoring the
    protected text with the store the protector has filled gives the text
    back. *)
Theorem protect_restore_round_trip text :
  (forall c, In c text -> c <> ch "_" /\ c <> ch "@" /\ c <> ch ":") ->
  _restore_protected_items (snd (_protect_special_patterns [] text))
                           (fst (_protect_special_patterns [] text)) = text.
Proof.
  intros H. pose proof (protect_stands_for text H) as Hfin.
  destruct (_protect_special_patterns [] text) as [p st].
  destruct Hfin as (HE & _ & HI). cbn [fst snd] in *.
  change (_restore_protected_items st p) with (restore_from (length (@nil (list N))) st p).
  apply restore_Exp; assumption.
Qed.

(* ===================================================================== *)
(** ** Further properties of the protector and the restorer *)
(* ===================================================================== *)

Lemma stages_store ps :
  Forall consumes ps ->
  forall ts, exists items,
    snd (fold_left (fun ts p => stage p ts) ps ts) = snd ts ++ items
    /\ Forall (fun m => Exists (fun p => Matches p m) ps) items.
Proof.
  induction 1 as [|p ps Hp _ IH]; intros ts; cbn [fold_left].
  - exists []. split; [now rewrite app_nil_r|constructor].
  - destruct (IH (stage p ts)) as (items2 & E2 & F2).
    destruct (SubRun_store (@re_sub_run p (fst ts) (snd ts) Hp)) as (items1 & E1 & F1).
    exists (items1 ++ items2). split.
    + rewrite E2. unfold stage at 1. rewrite E1. now rewrite app_assoc.
    + apply Forall_app. split.
      * eapply Forall_impl; [|exact F1]. intros m M. now left.
      * eapply Forall_impl; [|exact F2]. intros m M. now right.
Qed.

(** X7.  The protector only appends to the store: the items it finds
    there keep their places, and every item it adds is a text that one of the
    seven patterns matches. *)
Theorem protect_extends_store self text :
  exists items,
    snd (_protect_special_patterns self text) = self ++ items
    /\ Forall (fun m => Exists (fun p => Matches p m) protection_cascade) items.
Proof.
  rewrite protect_stages.
  exact (stages_store cascade_consumes (text, self)).
Qed.

(** X8.  On a text with no dot and no decimal digit the protector changes
    nothing: the text comes back as it is and the store is left as found. *)
Theorem protect_plain_text self text :
  (forall c, In c text -> c <> ch ".") ->
  (forall c, In c text -> py_isdecimal c = false) ->
  _protect_special_patterns self text = (text, self).
Proof. apply protect_no_match. Qed.

Lemma py_replace_no_underscore k w s :
  Forall (fun c => c <> ch "_") s -> py_replace (placeholder k) w s = s.
Proof.
  intros F. destruct (placeholder_snoc k) as (p & E). rewrite E.
  unfold py_replace. destruct (p ++ [95]) as [|a t] eqn:E1; [destruct p; discriminate|].
  rewrite <- E1. now apply replace_loop_no_underscore.
Qed.

(** X9.  The restorer leaves a text with no underscore as it is, whatever
    the store holds. *)
Theorem restore_plain_text self text :
  (forall c, In c text -> c <> ch "_") ->
  _restore_protected_items self text = text.
Proof.
  intros H. assert (F : Forall (fun c => c <> ch "_") text) by now apply Forall_forall.
  change (_restore_protected_items self text) with (restore_from 0 self text).
  generalize 0%nat. induction self as [|w self IH]; intros k; [reflexivity|].
  rewrite restore_from_cons, py_replace_no_underscore by exact F. apply IH.
Qed.

Lemma contains_self s : contains s s = true.
Proof.
  destruct s as [|c s]; [reflexivity|]. cbn [contains].
  rewrite <- (app_nil_r (c :: s)) at 2. now rewrite strip_prefix_complete.
Qed.

Lemma contains_inside k j :
  k <> j -> forall tt a, a ++ tt = placeholder j -> contains (placeholder k) tt = false.
Proof.
  intros Hk. induction tt as [|c tt IH]; intros a E.
  - rewrite placeholder_cons. reflexivity.
  - cbn [contains].
    pose proof (@no_occurrence_inside 0 k j a (c :: tt) [] Hk) as Hn.
    rewrite app_nil_r in Hn. rewrite Hn; [|exact E|discriminate|constructor].
    apply (IH (a ++ [c])). now rewrite <- app_assoc.
Qed.

(** X10.  The placeholder of one index occurs in the placeholder of another
    index only if the two indices are equal: restoring index 1 never touches
    the placeholder of index 10. *)
Theorem placeholder_occurs_iff k j :
  contains (placeholder k) (placeholder j) = true <-> k = j.
Proof.
  split.
  - intros H. destruct (Nat.eq_dec k j) as [E|Hne]; [exact E|].
    rewrite (@contains_inside k j Hne (placeholder j) [] eq_refl) in H. discriminate.
  - intros ->. apply contains_self.
Qed.

(* ===================================================================== *)
(** ** Nothing but whitespace is lost *)
(* ===================================================================== *)

Lemma non_space_rstrip s : non_space (py_rstrip s) = non_space s.
Proof.
  destruct (py_rstrip_split s) as (ws & E & F).
  rewrite E at 2. rewrite non_space_app, (non_space_spaces F). now rewrite app_nil_r.
Qed.

Lemma merge_step_non_space merged sentence :
  non_space (concat (merge_step merged sentence))
  = non_space (concat merged) ++ non_space sentence.
Proof.
  unfold merge_step. destruct merged as [|m merged].
  { simpl. now rewrite app_nil_r. }
  destruct (length (py_split sentence) <? 3)%nat.
  - pose proof (app_removelast_last (l:=m :: merged) [] ltac:(discriminate)) as E0.
    assert (E : non_space (concat (m :: merged))
                = non_space (concat (removelast (m :: merged)))
                    ++ non_space (last (m :: merged) [])).
    { rewrite E0 at 1. rewrite concat_app, non_space_app. cbn [concat].
      now rewrite app_nil_r. }
    rewrite E, concat_app, non_space_app. cbn [concat].
    rewrite app_nil_r, !non_space_app, non_space_rstrip.
    change (non_space (u8 " ")) with (@nil N). cbn [app]. now rewrite app_assoc.
  - rewrite concat_app, non_space_app. cbn [concat]. now rewrite app_nil_r.
Qed.

Lemma merge_non_space sentences :
  non_space (concat (_merge_short_sentences sentences)) = non_space (concat sentences).
Proof.
  unfold _merge_short_sentences.
  assert (G : forall l acc,
             non_space (concat (fold_left merge_step l acc))
             = non_space (concat acc) ++ non_space (concat l)).
  { induction l as [|s l IH]; intros acc; simpl.
    - now rewrite app_nil_r.
    - rewrite IH, merge_step_non_space, non_space_app, <- app_assoc. reflexivity. }
  apply G.
Qed.

Lemma match_group_none_inside j a tt x :
  a ++ tt = placeholder j -> tt <> [] ->
  match_group boundary_group boundary_tail (tt ++ x) = None.
Proof.
  intros E Hn.
  destruct (match_group boundary_group boundary_tail (tt ++ x)) as [[grp rest]|] eqn:Em;
    [exfalso|reflexivity].
  destruct (match_group_sound _ _ _ Em) as (ws & Es & Mg & _).
  destruct (boundary_group_match Mg) as (c & -> & Hc).
  destruct tt as [|c' tt]; [contradiction|].
  cbn [app] in Es. injection Es as -> _.
  pose proof (placeholder_no_boundary j) as F. rewrite <- E in F.
  apply Forall_app in F. destruct F as [_ F]. inversion F; subst. congruence.
Qed.

Lemma split_loop_jump j x :
  forall tt a fuel cur, a ++ tt = placeholder j -> (length (tt ++ x) < fuel)%nat ->
    split_loop boundary_group boundary_tail fuel (tt ++ x) cur
    = split_loop boundary_group boundary_tail (fuel - length tt) x (cur ++ tt).
Proof.
  induction tt as [|c tt IH]; intros a fuel cur E Hf.
  - cbn [app length]. now rewrite Nat.sub_0_r, app_nil_r.
  - destruct fuel as [|fuel]; [lia|]. cbn [split_loop].
    rewrite (@match_group_none_inside j a (c :: tt) x E) by discriminate.
    cbn [app length Nat.sub]. rewrite (IH (a ++ [c])).
    + now rewrite <- app_assoc.
    + now rewrite <- app_assoc.
    + simpl in Hf. lia.
Qed.

Lemma boundary_match_clean grp ws :
  Matches boundary_group grp -> Matches boundary_tail ws ->
  Forall (fun c => c <> ch "_") (grp ++ ws).
Proof.
  intros Mg Mt. apply Forall_app. split.
  - destruct (boundary_group_match Mg) as (c & -> & Hc).
    constructor; [|constructor]. intros ->. discriminate.
  - eapply Forall_impl; [|exact (boundary_tail_match Mt)]. intros c H ->. discriminate.
Qed.

(** The pieces [re.split] cuts a protected text into stand for pieces of
    the text. *)
Lemma split_loop_Exp st :
  forall n s fuel cur tc ts,
    (length s <= n)%nat -> (length s < fuel)%nat ->
    Exp 0 st s ts -> Exp 0 st cur tc ->
    exists tparts,
      Forall2 (Exp 0 st) (split_loop boundary_group boundary_tail fuel s cur) tparts
      /\ non_space (concat tparts) = non_space (tc ++ ts).
Proof.
  induction n as [|n IH]; intros s fuel cur tc ts Hn Hf Hs Hcur;
    (destruct fuel as [|fuel]; [lia|]).
  - destruct s; [|simpl in Hn; lia].
    assert (ts = []) as ->.
    { inversion Hs; subst; try reflexivity; exfalso;
        match goal with E : placeholder _ ++ _ = [] |- _ =>
          rewrite placeholder_cons in E; discriminate E end. }
    exists [tc]. cbn [split_loop]. rewrite (@match_group_no_match _ _
      (fun c => is_boundary c = true) [] needs_boundary) by (intros c []).
    split; [now repeat constructor|]. simpl. now rewrite !app_nil_r.
  - destruct Hs as [|c p t Hc Hp|j w p t Hj Hnth Hp].
    + exists [tc]. cbn [split_loop]. rewrite (@match_group_no_match _ _
        (fun c => is_boundary c = true) [] needs_boundary) by (intros c []).
      split; [now repeat constructor|]. simpl. now rewrite !app_nil_r.
    + cbn [split_loop].
      assert (Hcopy : exists tparts,
                 Forall2 (Exp 0 st)
                   (split_loop boundary_group boundary_tail fuel p (cur ++ [c])) tparts
                 /\ non_space (concat tparts) = non_space (tc ++ c :: t)).
      { destruct (IH p fuel (cur ++ [c]) (tc ++ [c]) t) as (tparts & F & E);
          try assumption; try (simpl in *; lia).
        - apply Exp_app; [exact Hcur|]. constructor; [exact Hc|constructor].
        - exists tparts. split; [exact F|]. rewrite E, <- app_assoc. reflexivity. }
      destruct (match_group boundary_group boundary_tail (c :: p)) as [[grp rest]|] eqn:Em;
        [|exact Hcopy].
      destruct (length rest <? length (c :: p))%nat eqn:Hlt; [|exact Hcopy].
      apply Nat.ltb_lt in Hlt.
      destruct (match_group_sound _ _ _ Em) as (ws & Es & Mg & Mt).
      pose proof (boundary_match_clean Mg Mt) as Fw.
      assert (HE' : Exp 0 st ((grp ++ ws) ++ rest) (c :: t))
        by (rewrite <- app_assoc, <- Es; now constructor).
      destruct (Exp_peel Fw _ HE') as (t' & Et & Hr).
      destruct (IH rest fuel [] [] t') as (tparts & F & E);
        try assumption; try constructor; try (simpl in *; lia).
      exists (tc :: grp :: tparts). split.
      * constructor; [exact Hcur|]. constructor; [|exact F].
        apply Exp_chars. apply Forall_app in Fw. tauto.
      * cbn [concat]. rewrite !non_space_app, E, Et. cbn [app].
        rewrite !non_space_app, (non_space_spaces (boundary_tail_match Mt)).
        now rewrite app_nil_r.
    + rewrite (@split_loop_jump j p (placeholder j) [] (S fuel) cur eq_refl Hf).
      destruct (IH p (S fuel - length (placeholder j))%nat (cur ++ placeholder j) (tc ++ w) t)
        as (tparts & F & E); try assumption.
      * rewrite length_app, placeholder_cons in Hn. simpl in Hn. lia.
      * rewrite length_app in Hf. lia.
      * apply Exp_app; [exact Hcur|].
        rewrite <- (app_nil_r (placeholder j)), <- (app_nil_r w).
        apply E_ph; [exact Hj|exact Hnth|constructor].
      * exists tparts. split; [exact F|]. now rewrite E, <- app_assoc.
Qed.

(** *** From the protected text back to the text *)

Lemma Exp_clean_eq lo st p t :
  Forall (fun c => c <> ch "_") p -> Exp lo st p t -> t = p.
Proof.
  intros F H. induction H as [|c p t Hc _ IH|j w p t Hj Hn _ IH].
  - reflexivity.
  - inversion F; subst. now rewrite IH.
  - exfalso. rewrite placeholder_cons in F. cbn [app] in F.
    inversion F as [|? ? Hx _]. now apply Hx.
Qed.

Lemma Exp_peel_right lo st ws :
  Forall (fun c => c <> ch "_") ws ->
  forall q t, Exp lo st q t ->
    forall a, q = a ++ ws -> exists t', t = t' ++ ws /\ Exp lo st a t'.
Proof.
  intros Fw q t H. induction H as [|c p t Hc Hp IH|j w p t Hj Hn Hp IH]; intros a E.
  - symmetry in E. apply app_eq_nil in E. destruct E as [-> ->].
    exists []. split; [reflexivity|constructor].
  - destruct a as [|d a].
    + cbn [app] in E. subst ws. exists []. split; [|constructor]. cbn [app].
      inversion Fw; subst. f_equal. now apply (@Exp_clean_eq lo st).
    + cbn [app] in E. injection E as <- ->.
      destruct (IH a eq_refl) as (t' & -> & Ha).
      exists (c :: t'). split; [reflexivity|now constructor].
  - destruct (app_eq_app _ _ _ _ E) as (l & [[E1 E2]|[E1 E2]]).
    + destruct l as [|x l].
      * rewrite app_nil_r in E1. cbn [app] in E2. subst a ws.
        exists w. split.
        -- f_equal. now apply (@Exp_clean_eq lo st).
        -- rewrite <- (app_nil_r (placeholder j)), <- (app_nil_r w).
           apply E_ph; [exact Hj|exact Hn|constructor].
      * exfalso.
        assert (Hin : In 95 (x :: l))
          by (apply (@suffix_has_underscore j a); [now symmetry|discriminate]).
        rewrite E2 in Fw. apply Forall_app in Fw. destruct Fw as [Fw _].
        rewrite Forall_forall in Fw. now apply (Fw 95 Hin).
    + subst a. destruct (IH l E2) as (t' & -> & Hl).
      exists (w ++ t'). split; [now rewrite app_assoc|].
      apply E_ph; assumption.
Qed.

Lemma Exp_lstrip st q t :
  Exp 0 st q t -> exists t', Exp 0 st (py_lstrip q) t' /\ non_space t' = non_space t.
Proof.
  induction 1 as [|c p t Hc Hp IH|j w p t Hj Hn Hp IH].
  - exists []. split; [constructor|reflexivity].
  - cbn [py_lstrip]. destruct (py_isspace c) eqn:Es.
    + destruct IH as (t' & H' & E). exists t'. split; [exact H'|].
      rewrite E. unfold non_space. cbn [filter]. now rewrite Es.
    + exists (c :: t). split; [now constructor|reflexivity].
  - exists (w ++ t). split; [|reflexivity].
    assert (E : py_lstrip (placeholder j ++ p) = placeholder j ++ p)
      by (rewrite placeholder_cons; reflexivity).
    rewrite E. now apply E_ph.
Qed.

Lemma Exp_rstrip st q t :
  Exp 0 st q t -> exists t', Exp 0 st (py_rstrip q) t' /\ non_space t' = non_space t.
Proof.
  intros H. destruct (py_rstrip_split q) as (ws & E & F).
  assert (Fw : Forall (fun c => c <> ch "_") ws).
  { eapply Forall_impl; [|exact F]. intros c Hc ->. discriminate. }
  destruct (@Exp_peel_right 0 st ws Fw q t H (py_rstrip q) E) as (t' & -> & H').
  exists t'. split; [exact H'|].
  now rewrite non_space_app, (non_space_spaces F), app_nil_r.
Qed.

Lemma Exp_strip st q t :
  Exp 0 st q t -> exists t', Exp 0 st (py_strip q) t' /\ non_space t' = non_space t.
Proof.
  intros H. destruct (Exp_lstrip H) as (t1 & H1 & E1).
  destruct (Exp_rstrip H1) as (t2 & H2 & E2).
  exists t2. split; [exact H2|congruence].
Qed.

Lemma restore_strip_non_space st q t :
  Forall (Forall (fun c => c <> ch "_")) st -> Exp 0 st q t ->
  non_space (_restore_protected_items st (py_strip q)) = non_space t
  /\ (py_strip q = [] -> non_space t = []).
Proof.
  intros Hst H. destruct (Exp_strip H) as (t' & H' & E). split.
  - change (_restore_protected_items st (py_strip q))
      with (restore_from (length (@nil (list N))) st (py_strip q)).
    rewrite (@restore_Exp st Hst [] (py_strip q) t' H'). exact E.
  - intros Eq. rewrite Eq in H'. rewrite <- E.
    now rewrite (@Exp_clean_eq 0 st [] t' (Forall_nil _) H').
Qed.

Lemma last_skip2 (A : Type) (a b d : A) l : l <> [] -> last (a :: b :: l) d = last l d.
Proof. destruct l; [congruence|reflexivity]. Qed.

Lemma split_pairs_Exp st :
  Forall (Forall (fun c => c <> ch "_")) st ->
  forall parts tparts,
    Forall2 (Exp 0 st) parts tparts -> (length parts mod 2 = 1)%nat ->
    non_space (concat (split_pairs st parts)) ++ non_space (last tparts [])
    = non_space (concat tparts)
    /\ Exp 0 st (last parts []) (last tparts []).
Proof.
  intros Hst parts.
  induction parts as [|x|p0 p1 tl IH] using list_pair_ind; intros tparts F Hodd.
  - discriminate.
  - inversion F as [|? t0 ? ? H0 F']; subst. inversion F'; subst.
    split; [simpl; now rewrite app_nil_r|exact H0].
  - inversion F as [|? t0 ? ? H0 F0]; subst.
    inversion F0 as [|? t1 ? ttl H1 F1]; subst.
    cbn [length] in Hodd. rewrite mod2_SS in Hodd.
    destruct (IH _ F1 Hodd) as (E & HL).
    assert (Hne : tl <> []) by (intros ->; discriminate Hodd).
    assert (Hne' : ttl <> []) by (intros ->; inversion F1; subst; now apply Hne).
    rewrite !last_skip2 by assumption.
    split; [|exact HL].
    cbn [split_pairs].
    destruct (@restore_strip_non_space st (p0 ++ p1) (t0 ++ t1) Hst (Exp_app H0 H1))
      as (Es & _).
    assert (E' : non_space
                   (concat match _restore_protected_items st (py_strip (p0 ++ p1)) with
                           | [] => split_pairs st tl
                           | _ :: _ =>
                             _restore_protected_items st (py_strip (p0 ++ p1))
                               :: split_pairs st tl
                           end)
                 = non_space (t0 ++ t1) ++ non_space (concat (split_pairs st tl))).
    { rewrite <- Es.
      destruct (_restore_protected_items st (py_strip (p0 ++ p1))); [reflexivity|].
      cbn [concat]. now rewrite non_space_app. }
    rewrite E', <- app_assoc, E. cbn [concat].
    now rewrite !non_space_app, !app_assoc.
Qed.

Lemma split_into_sentences_Exp st p t :
  Forall (Forall (fun c => c <> ch "_")) st -> Exp 0 st p t ->
  non_space (concat (_split_into_sentences st p)) = non_space t.
Proof.
  intros Hst H. unfold _split_into_sentences, re_split.
  pose proof (@alternating_odd _ (split_loop_alternating (S (length p)) p [])) as Hodd.
  destruct (@split_loop_Exp st (length p) p (S (length p)) [] [] t
              (le_n _) (Nat.lt_succ_diag_r _) H (E_nil 0 st)) as (tparts & F & E).
  cbn [app] in E.
  destruct (split_pairs_Exp Hst F Hodd) as (E1 & HL).
  destruct (restore_strip_non_space Hst HL) as (Er & Ez).
  rewrite Hodd. cbn [Nat.eqb andb].
  set (parts := split_loop boundary_group boundary_tail (S (length p)) p []) in *.
  destruct (length (py_strip (last parts [])) =? 0)%nat eqn:El; cbn [negb].
  - apply Nat.eqb_eq in El. apply length_zero_iff_nil in El.
    now rewrite <- E, <- E1, (Ez El), app_nil_r.
  - rewrite <- E, <- E1, <- Er.
    destruct (_restore_protected_items st (py_strip (last parts [])));
      [now rewrite app_nil_r|].
    rewrite concat_app, non_space_app. cbn [concat]. now rewrite app_nil_r.
Qed.

(** X11.  For a text that holds no underscore, no at sign and no colon, the
    sentences [tokenize] returns hold, read one after the other, exactly the
    code points of the text that are not whitespace, in their order:
    nothing is lost, nothing is added, no placeholder is left. *)
Theorem tokenize_keeps_non_space text :
  (forall c, In c text -> c <> ch "_" /\ c <> ch "@" /\ c <> ch ":") ->
  non_space (concat (gujarati_sentence_tokenizer text)) = non_space text.
Proof.
  intros H. pose proof (protect_stands_for text H) as S.
  unfold gujarati_sentence_tokenizer, tokenize.
  destruct (_protect_special_patterns [] text) as [p st]. cbn [fst].
  destruct S as (HE & _ & Hst). cbn [fst snd] in *.
  rewrite merge_non_space. now apply split_into_sentences_Exp.
Qed.

(* ===================================================================== *)
(** ** The counts of [calculate_text_metrics] *)
(* ===================================================================== *)



Lemma split_words_cur :
  forall s cur, cur <> [] -> (1 <= length (split_words s cur))%nat.
Proof.
  induction s as [|c s IH]; intros cur Hc; cbn [split_words].
  - destruct cur; [congruence|simpl; lia].
  - destruct (py_isspace c).
    + destruct cur; [congruence|simpl; lia].
    + apply IH. destruct cur; discriminate.
Qed.



Lemma tight_has_word s : tight s -> (1 <= length (py_split s))%nat.
Proof.
  intros (Hne & Hl & _). destruct s as [|c s]; [congruence|].
  unfold py_split. cbn [split_words]. rewrite (Hl c s eq_refl).
  apply split_words_cur. discriminate.
Qed.



Lemma three_words_each l :
  Forall (fun s => (3 <= length (py_split s))%nat) l ->
  (3 * length l <= list_sum (map (fun s => length (py_split s)) l))%nat.
Proof.
  induction 1 as [|s l Hs _ IH]; [constructor|].
  unfold list_sum in *; cbn [map fold_right length]. lia.
Qed.


Section MetricsOfTokenizer.

Hypothesis alnum_not_space : forall c, uni_alnum c = true -> py_isspace c = false.
Hypothesis decimal_not_space : forall c, uni_decimal c = true -> py_isspace c = false.

(** X13.  On the sentences [tokenize] returns, as the driver computes
    them, there are at least as many words as sentences: the first
    sentence has a word and every later one has three. *)
Theorem tokenized_metrics text :
  (total_sentences (calculate_text_metrics (gujarati_sentence_tokenizer text))
   <= total_words (calculate_text_metrics (gujarati_sentence_tokenizer text)))%nat
  /\ (3 * total_sentences (calculate_text_metrics (gujarati_sentence_tokenizer text))
      <= total_words (calculate_text_metrics (gujarati_sentence_tokenizer text)) + 2)%nat.
Proof.
  cbn [calculate_text_metrics total_sentences total_words].
  unfold gujarati_sentence_tokenizer. rewrite tokenize_unfold. cbn [fst].
  pose proof (candidates_tight alnum_not_space decimal_not_space text) as H.
  pose proof (merge_tail_words (candidates_of text)) as T.
  assert (F : Forall tight (_merge_short_sentences (candidates_of text))).
  { unfold _merge_short_sentences.
    rewrite merge_fold_merger by (try exact H; constructor).
    apply merger_tight; [exact H|constructor]. }
  destruct (_merge_short_sentences (candidates_of text)) as [|s l]; [simpl; lia|].
  cbn [tl] in T. inversion F as [|? ? Hs _]; subst.
  pose proof (tight_has_word Hs). pose proof (three_words_each T).
  unfold list_sum in *; cbn [map fold_right length]. lia.
Qed.

End MetricsOfTokenizer.

(* ===================================================================== *)
(** ** The cuts of the splitter *)
(* ===================================================================== *)











Lemma match_group_boundary_nil :
  match_group boundary_group boundary_tail [] = None.
Proof. reflexivity. Qed.

















End Unicode.

(* ===================================================================== *)
(** ** Instances with the Latin-1 and Gujarati rows of the tables *)
(* ===================================================================== *)

Lemma latin_gujarati_alnum_not_space c :
  latin_gujarati_alnum c = true -> py_isspace c = false.
Proof. unfold latin_gujarati_alnum, py_isspace. intros H. bool_arith. Qed.

Lemma latin_gujarati_decimal_not_space c :
  latin_gujarati_decimal c = true -> py_isspace c = false.
Proof. unfold latin_gujarati_decimal, gujarati_digit, py_isspace. intros H. bool_arith. Qed.

(** C1: the claim fails as stated, [tokenize] does not return two
    sentences for the URL example. *)
Lemma url_example_not_two_sentences :
  length (gujarati_sentence_tokenizer latin_gujarati_alnum latin_gujarati_decimal
            url_example) <> 2%nat.
Proof. vm_compute. discriminate. Qed.

(** C4: the claim fails as stated, a newline that does not follow boundary
    punctuation stays inside the returned sentence. *)
Lemma newline_kept_inside_sentence :
  ~ (forall ua ud text s,
       In s (gujarati_sentence_tokenizer ua ud text) -> ~ In 0x0A s).
Proof.
  intros H.
  apply (H latin_gujarati_alnum latin_gujarati_decimal newline_example newline_example).
  - vm_compute. now left.
  - vm_compute. tauto.
Qed.

Lemma tokenize_sentences_tight_witness :
  Forall tight
    (fst (tokenize latin_gujarati_alnum latin_gujarati_decimal []
            (u8 " Hello there. 12 જાન્યુઆરી 2020 was cold. Yes. ")))
  /\ gujarati_sentence_tokenizer latin_gujarati_alnum latin_gujarati_decimal
       newline_example = [newline_example].
Proof.
  apply tokenize_sentences_tight.
  - exact latin_gujarati_alnum_not_space.
  - exact latin_gujarati_decimal_not_space.
Defined.

Lemma merger_follows_policy_witness :
  fst (tokenize latin_gujarati_alnum latin_gujarati_decimal [] url_example)
  = merger [] (candidates_of latin_gujarati_alnum latin_gujarati_decimal url_example)
  /\ fst (tokenize latin_gujarati_alnum latin_gujarati_decimal [] (u8 "Hi.")) = [u8 "Hi."].
Proof.
  apply merger_follows_policy.
  - exact latin_gujarati_alnum_not_space.
  - exact latin_gujarati_decimal_not_space.
Defined.


(** C8: the claim fails as stated.  The empty text gives the empty list,
    but a text that is not empty and has no boundary punctuation need not
    give the list of its trimmed form: the text of one space gives the
    empty list, not the list of the empty text. *)
Lemma blank_text_gives_no_sentence :
  ~ (forall ua ud,
       gujarati_sentence_tokenizer ua ud [] = []
       /\ forall text,
            text <> [] ->
            (forall c, In c text -> is_boundary c = false) ->
            gujarati_sentence_tokenizer ua ud text = [py_strip text]).
Proof.
  intros H.
  destruct (H latin_gujarati_alnum latin_gujarati_decimal) as [_ H1].
  specialize (H1 (u8 " ")).
  assert (E : forall c, In c (u8 " ") -> is_boundary c = false) by each_code_point.
  specialize (H1 ltac:(discriminate) E). vm_compute in H1. discriminate.
Qed.

(** Why texts with [PROTECTED_] in front of a digit are left out above: a
    placeholder literal written in the text is taken for the placeholder of
    a date. *)
Lemma placeholder_literal_collision :
  gujarati_sentence_tokenizer latin_gujarati_alnum latin_gujarati_decimal
    (u8 "__PROTECTED_0__ 1/1/20") = [u8 "1/1/20 1/1/20"].
Proof. vm_compute. reflexivity. Qed.

(** The text need not hold a whole placeholder for that: the underscores
    of the placeholders of the dates around it complete [PROTECTED_0]. *)
Lemma placeholder_stem_collision :
  gujarati_sentence_tokenizer latin_gujarati_alnum latin_gujarati_decimal
    (u8 "1/1/20 2/2/20PROTECTED_0__") = [u8 "1/1/20 __PROTECTED_11/1/20"]
  /\ gujarati_sentence_tokenizer latin_gujarati_alnum latin_gujarati_decimal
       (u8 "1/1/20 12/1/20PROTECTED_012/1/20")
     = [u8 "1/1/20 __PROTECTED_11/1/20PROTECTED_2__"].
Proof. split; vm_compute; reflexivity. Qed.

Lemma no_boundary_single_sentence_witness :
  gujarati_sentence_tokenizer latin_gujarati_alnum latin_gujarati_decimal [] = []
  /\ gujarati_sentence_tokenizer latin_gujarati_alnum latin_gujarati_decimal
       (u8 "  version_2 of file_10 on 12/12/2020 ")
     = match py_strip (u8 "  version_2 of file_10 on 12/12/2020 ") with
       | [] => []
       | _ => [py_strip (u8 "  version_2 of file_10 on 12/12/2020 ")]
       end.
Proof.
  apply no_boundary_single_sentence.
  - exact latin_gujarati_alnum_not_space.
  - exact latin_gujarati_decimal_not_space.
  - each_code_point.
  - vm_compute. reflexivity.
Defined.


(* ===================================================================== *)
(** ** Instances of the further results *)
(* ===================================================================== *)

Lemma protect_restore_round_trip_witness :
  _restore_protected_items
    (snd (_protect_special_patterns latin_gujarati_alnum latin_gujarati_decimal []
            report_example))
    (fst (_protect_special_patterns latin_gujarati_alnum latin_gujarati_decimal []
            report_example))
  = report_example.
Proof.
  apply protect_restore_round_trip.
  intros c H; vm_compute in H.
  repeat (destruct H as [H|H]; [subst c; repeat split; vm_compute; discriminate|]).
  contradiction.
Defined.

Lemma tokenize_keeps_non_space_witness :
  non_space
    (concat (gujarati_sentence_tokenizer latin_gujarati_alnum latin_gujarati_decimal
               report_example))
  = non_space report_example.
Proof.
  apply tokenize_keeps_non_space.
  intros c H; vm_compute in H.
  repeat (destruct H as [H|H]; [subst c; repeat split; vm_compute; discriminate|]).
  contradiction.
Defined.

Lemma protect_plain_text_witness :
  _protect_special_patterns latin_gujarati_alnum latin_gujarati_decimal
    [u8 "3."] (u8 "Hello there! How are you?")
  = (u8 "Hello there! How are you?", [u8 "3."]).
Proof.
  apply protect_plain_text.
  - intros c H; vm_compute in H.
    repeat (destruct H as [H|H]; [subst c; vm_compute; discriminate|]).
    contradiction.
  - each_code_point.
Defined.

Lemma restore_plain_text_witness :
  _restore_protected_items [u8 "3."; u8 "..."] (u8 "Hello there. Yes")
  = u8 "Hello there. Yes".
Proof.
  apply restore_plain_text.
  intros c H; vm_compute in H.
  repeat (destruct H as [H|H]; [subst c; vm_compute; discriminate|]).
  contradiction.
Defined.

Lemma tokenized_metrics_witness :
  (total_sentences
     (calculate_text_metrics
        (gujarati_sentence_tokenizer latin_gujarati_alnum latin_gujarati_decimal
           report_example))
   <= total_words
        (calculate_text_metrics
           (gujarati_sentence_tokenizer latin_gujarati_alnum latin_gujarati_decimal
              report_example)))%nat
  /\ (3 * total_sentences
            (calculate_text_metrics
               (gujarati_sentence_tokenizer latin_gujarati_alnum latin_gujarati_decimal
                  report_example))
      <= total_words
           (calculate_text_metrics
              (gujarati_sentence_tokenizer latin_gujarati_alnum latin_gujarati_decimal
                 report_example)) + 2)%nat.
Proof.
  apply tokenized_metrics.
  - exact latin_gujarati_alnum_not_space.
  - exact latin_gujarati_decimal_not_space.
Defined.

(* ===================================================================== *)
(** ** Further runs of the tokenizer *)
(* ===================================================================== *)

(** An abbreviation is no boundary. *)
Lemma abbreviation_example :
  gujarati_sentence_tokenizer latin_gujarati_alnum latin_gujarati_decimal
    (u8 "Dr. Patel arrived.") = [u8 "Dr. Patel arrived."].
Proof. vm_compute. reflexivity. Qed.

(** A short last sentence is joined to the one before it. *)
Lemma merge_example :
  gujarati_sentence_tokenizer latin_gujarati_alnum latin_gujarati_decimal
    (u8 "I went to school. She went to work. We left.")
  = [u8 "I went to school."; u8 "She went to work. We left."].
Proof. vm_compute. reflexivity. Qed.

(** Gujarati text: a date with a month name, a number with Gujarati digits
    and a word ending in a vowel sign, each followed by a dot or holding
    whitespace, are protected; the danda ends a sentence. *)
Lemma gujarati_example :
  _protect_special_patterns latin_gujarati_alnum latin_gujarati_decimal []
    (u8 "તા. ૧૮. 12 માર્ચ 2020 ના રોજ। તે ગયો હતો.")
  = (u8 "__PROTECTED_2__ __PROTECTED_1__ __PROTECTED_0__ ના રોજ। તે ગયો __PROTECTED_3__",
     [u8 "12 માર્ચ 2020"; u8 "૧૮."; u8 "તા."; u8 "હતો."])
  /\ gujarati_sentence_tokenizer latin_gujarati_alnum latin_gujarati_decimal
       (u8 "તા. ૧૮. 12 માર્ચ 2020 ના રોજ। તે ગયો હતો.")
     = [u8 "તા. ૧૮. 12 માર્ચ 2020 ના રોજ।"; u8 "તે ગયો હતો."].
Proof. split; vm_compute; reflexivity. Qed.
